(** * Experience-replay buffers ([replay.py]): embedding and verified properties

    The six replay classes of [replay.py] are embedded as state-passing
    programs over records that mirror the instance attributes; a method
    is a function from the instance to an outcome (return, exception, or
    a float that is no real number).

    - Numbers are read in exact arithmetic: a float is a real.  Every
      number also carries whether it is a builtin Python number or a
      NumPy scalar, because the two differ on division by zero and on
      [list / number].
    - Python lists are lists with Python's index rule (negative indices
      count from the end, anything else out of range is [IndexError]).
    - The random generator is an explicit argument of [sample].
    - Inheritance: a subclass record holds the record of its base class;
      [super] runs a base method on it.

    Part 1 is the embedding, part 2 the notions the statements use,
    part 3 the properties. *)

From Stdlib Require Import Reals Lra Lia ZArith List.
From stdpp Require Import base list.
Import ListNotations.

(** ** Numbers *)

Module Number.
Local Open Scope R_scope.

(** [Py]: builtin [int]/[float]; [Np]: a NumPy [float64] scalar or array
    element. *)
Inductive kind := Py | Np.

Definition join (k1 k2 : kind) : kind :=
  match k1, k2 with
  | Py, Py => Py
  | _, _ => Np
  end.

Record num := Num { val : R; kd : kind }.

Inductive exn := ValueError | TypeError | IndexError | ZeroDivisionError.

(** Result of a pure expression: a value, a Python exception, or [NaR]
    when the float result is [inf], [nan] or complex, which the reals do
    not represent. *)
Inductive res (A : Type) :=
| Ok (a : A)
| Err (e : exn)
| NaR.
Arguments Ok {A} a.
Arguments Err {A} e.
Arguments NaR {A}.

Definition res_bind {A B} (r : res A) (k : A -> res B) : res B :=
  match r with
  | Ok a => k a
  | Err e => Err e
  | NaR => NaR
  end.

Fixpoint res_mapM {A B} (f : A -> res B) (l : list A) : res (list B) :=
  match l with
  | [] => Ok []
  | x :: l' =>
      res_bind (f x) (fun y => res_bind (res_mapM f l') (fun ys => Ok (y :: ys)))
  end.

Definition Rltb (a b : R) : bool := if Rlt_dec a b then true else false.
Definition Reqb (a b : R) : bool := if Req_dec_T a b then true else false.

Definition zero : num := Num 0 Py.
Definition one : num := Num 1 Py.

Definition py_abs (x : num) : num := Num (Rabs (val x)) (kd x).
Definition py_add (x y : num) : num := Num (val x + val y) (join (kd x) (kd y)).
Definition py_sub (x y : num) : num := Num (val x - val y) (join (kd x) (kd y)).
Definition py_mul (x y : num) : num := Num (val x * val y) (join (kd x) (kd y)).
Definition py_lt (x y : num) : bool := Rltb (val x) (val y).
Definition py_eq (x y : num) : bool := Reqb (val x) (val y).

(** [x / y]: builtin numbers raise on a zero divisor, NumPy yields
    [inf]/[nan] with a warning. *)
Definition py_div (x y : num) : res num :=
  let k := join (kd x) (kd y) in
  if Reqb (val y) 0 then
    match k with
    | Py => Err ZeroDivisionError
    | Np => NaR
    end
  else Ok (Num (val x / val y) k).

(** [x ** a]. *)
Definition py_pow (x a : num) : res num :=
  let k := join (kd x) (kd a) in
  if Rltb 0 (val x) then Ok (Num (Rpower (val x) (val a)) k)
  else if Reqb (val x) 0 then
    if Rltb 0 (val a) then Ok (Num 0 k)
    else if Reqb (val a) 0 then Ok (Num 1 k)
    else match k with
         | Py => Err ZeroDivisionError
         | Np => NaR
         end
  else if Reqb (val a) (IZR (Int_part (val a)))
       then Ok (Num (powerRZ (val x) (Int_part (val a))) k)
       else NaR.

(** [np.exp(x)]. *)
Definition np_exp (x : num) : num := Num (exp (val x)) Np.

(** [int(b)] of a comparison result. *)
Definition py_int (b : bool) : num := if b then one else zero.

(** builtin [sum]: a left fold of [+] from the int [0]. *)
Definition py_sum (l : list num) : num := fold_left py_add l zero.

(** [a % b] on non-negative ints. *)
Definition py_mod (a b : nat) : res nat :=
  if (b =? 0)%nat then Err ZeroDivisionError else Ok (a mod b)%nat.

(** Exact sum of the values of a list. *)
Fixpoint total (l : list num) : R :=
  match l with
  | [] => 0
  | x :: l' => val x + total l'
  end.

End Number.
Export Number.

(** ** Sequences and arrays *)

Module Seq.

(** Position addressed by a Python index in a sequence of length [len]:
    negative indices count from the end. *)
Definition py_index (len : nat) (i : Z) : option nat :=
  if (0 <=? i)%Z then
    if (i <? Z.of_nat len)%Z then Some (Z.to_nat i) else None
  else
    if (- Z.of_nat len <=? i)%Z then Some (Z.to_nat (Z.of_nat len + i)) else None.

(** [l[i]] *)
Definition getitem {A} (l : list A) (i : Z) : res A :=
  match py_index (length l) i with
  | Some k =>
      match l !! k with
      | Some x => Ok x
      | None => Err IndexError
      end
  | None => Err IndexError
  end.

(** [l[i] = x] *)
Definition setitem {A} (l : list A) (i : Z) (x : A) : res (list A) :=
  match py_index (length l) i with
  | Some k => Ok (<[k := x]> l)
  | None => Err IndexError
  end.

(** [np.multiply(a, b)] on one-dimensional operands, with NumPy's
    broadcasting of a length-one operand. *)
Definition np_multiply (a b : list num) : res (list num) :=
  let mul x y := Num (val x * val y) Np in
  if (length a =? length b)%nat then Ok (zip_with mul a b)
  else match a, b with
       | [x], _ => Ok (map (mul x) b)
       | _, [y] => Ok (map (fun x => mul x y) a)
       | _, _ => Err ValueError
       end.

(** [arr / s] for an ndarray [arr]: elementwise, result is an ndarray. *)
Definition np_divide (arr : list num) (s : num) : res (list num) :=
  res_mapM (fun x => py_div (Num (val x) Np) s) arr.

(** [lst / s] for a Python list [lst]: only a NumPy scalar on the right
    accepts a list (it converts it to an array); a builtin number does
    not. *)
Definition list_divide (lst : list num) (s : num) : res (list num) :=
  match kd s with
  | Py => Err TypeError
  | Np => np_divide lst s
  end.

(** [np.cumsum]. *)
Fixpoint cumsum_from (acc : R) (l : list num) : list R :=
  match l with
  | [] => []
  | x :: l' => (acc + val x)%R :: cumsum_from (acc + val x)%R l'
  end.
Definition np_cumsum (l : list num) : list R := cumsum_from 0%R l.

(** [sum(cmf < u)]: how many entries are strictly below [u]. *)
Fixpoint count_lt (cmf : list R) (u : R) : nat :=
  match cmf with
  | [] => 0
  | c :: cmf' => (if Rltb c u then 1 else 0) + count_lt cmf' u
  end.

(** A two-dimensional [float64] array. *)
Record ndarray := NdArray { nrows : nat; ncols : nat; cell : nat -> nat -> R }.

Definition np_zeros (r c : nat) : ndarray := NdArray r c (fun _ _ => 0%R).

Definition cell_index (m : ndarray) (i j : Z) : option (nat * nat) :=
  match py_index (nrows m) i, py_index (ncols m) j with
  | Some a, Some b => Some (a, b)
  | _, _ => None
  end.

(** [m[i, j]] *)
Definition getcell (m : ndarray) (i j : Z) : res num :=
  match cell_index m i j with
  | Some (a, b) => Ok (Num (cell m a b) Np)
  | None => Err IndexError
  end.

(** [m[i, j] += 1] *)
Definition inccell (m : ndarray) (i j : Z) : res ndarray :=
  match cell_index m i j with
  | Some (a, b) =>
      Ok (NdArray (nrows m) (ncols m)
            (fun a' b' => if (a' =? a)%nat && (b' =? b)%nat
                          then (cell m a' b' + 1)%R else cell m a' b'))
  | None => Err IndexError
  end.

End Seq.
Export Seq.

(** ** Method calls: state passing with exceptions *)

Module Call.

(** What a method call does to the instance [S]: it returns [a] leaving
    state [s], or an exception [e] propagates with the instance left in
    state [s], or a float leaves the reals. *)
Inductive outcome (S A : Type) :=
| Returns (a : A) (s : S)
| Raises (e : exn) (s : S)
| NotReal.
Arguments Returns {S A} a s.
Arguments Raises {S A} e s.
Arguments NotReal {S A}.

Definition M (S A : Type) := S -> outcome S A.

Definition ret {S A} (a : A) : M S A := fun s => Returns a s.

Definition bind {S A B} (m : M S A) (k : A -> M S B) : M S B :=
  fun s =>
    match m s with
    | Returns a s' => k a s'
    | Raises e s' => Raises e s'
    | NotReal => NotReal
    end.

Definition get {S} : M S S := fun s => Returns s s.
Definition modify {S} (f : S -> S) : M S unit := fun s => Returns tt (f s).

Definition lift {S A} (r : res A) : M S A :=
  fun s =>
    match r with
    | Ok a => Returns a s
    | Err e => Raises e s
    | NaR => NotReal
    end.

(** Run a method of the base class on the [base] part of the instance. *)
Definition super {S B A} (proj : S -> B) (upd : B -> S -> S) (m : M B A) : M S A :=
  fun s =>
    match m (proj s) with
    | Returns a b => Returns a (upd b s)
    | Raises e b => Raises e (upd b s)
    | NotReal => NotReal
    end.

(** [for x in l: body x] *)
Fixpoint for_each {S A} (l : list A) (body : A -> M S unit) : M S unit :=
  match l with
  | [] => ret tt
  | x :: l' => bind (body x) (fun _ => for_each l' body)
  end.

End Call.
Export Call.

Notation "x <- c1 ;; c2" := (bind c1 (fun x => c2))
  (at level 100, c1 at next level, right associativity).
Notation "c1 ;; c2" := (bind c1 (fun _ => c2))
  (at level 100, right associativity).

(** A transition [(state, action, reward, next_state)]. *)
Record experience := Experience {
  state : Z;
  action : Z;
  reward : num;
  next_state : Z
}.

(** ** [class ExperienceReplay]: uniform sampling *)

Module ExperienceReplay.

Record t := Make {
  buffer_size : nat;
  buffer : list experience;
  next_index : nat
}.

Definition set_buffer (f : list experience -> list experience) (self : t) : t :=
  Make (buffer_size self) (f (buffer self)) (next_index self).
Definition set_next_index (n : nat) (self : t) : t :=
  Make (buffer_size self) (buffer self) n.

Definition init (buffer_size : nat) : t := Make buffer_size [] 0.

Definition store (state action : Z) (reward : num) (next_state : Z) : M t unit :=
  let experience := Experience state action reward next_state in
  self <- get ;;
  (if (next_index self <? length (buffer self))%nat
   then modify (set_buffer (fun b => <[next_index self := experience]> b))
   else modify (set_buffer (fun b => b ++ [experience]))) ;;
  self <- get ;;
  n <- lift (py_mod (next_index self + 1) (buffer_size self)) ;;
  modify (set_next_index n).

(** [np.random.randint(high)]: [draw] is the generator's raw output,
    reduced into [[0, high)]; a non-positive [high] is a [ValueError]. *)
Definition randint (high : nat) (draw : nat) : res nat :=
  if (high =? 0)%nat then Err ValueError else Ok (draw mod high)%nat.

Definition sample (draw : nat) : M t nat :=
  self <- get ;;
  index <- lift (randint (length (buffer self)) draw) ;;
  ret index.

Definition updatePriority (idx : Z) (TDerror : num) : M t unit := ret tt.

End ExperienceReplay.

(** ** [class PrioritizedER]: sampling weighted by the TD error *)

Module PrioritizedER.

Record t := Make {
  buffer_size : nat;
  buffer : list experience;
  next_index : nat;
  alpha : num;
  E : num;
  priorities : list num;
  priority_sum : num
}.

Definition set_buffer (f : list experience -> list experience) (self : t) : t :=
  Make (buffer_size self) (f (buffer self)) (next_index self) (alpha self)
       (E self) (priorities self) (priority_sum self).
Definition set_next_index (n : nat) (self : t) : t :=
  Make (buffer_size self) (buffer self) n (alpha self) (E self)
       (priorities self) (priority_sum self).
Definition set_priorities (f : list num -> list num) (self : t) : t :=
  Make (buffer_size self) (buffer self) (next_index self) (alpha self)
       (E self) (f (priorities self)) (priority_sum self).
Definition set_priority_sum (f : num -> num) (self : t) : t :=
  Make (buffer_size self) (buffer self) (next_index self) (alpha self)
       (E self) (priorities self) (f (priority_sum self)).

Definition init (buffer_size : nat) (alpha E : num) : t :=
  Make buffer_size [] 0 alpha E [] zero.

Definition store (state action : Z) (reward : num) (next_state : Z)
    (TDerror : num) : M t unit :=
  let experience := Experience state action reward next_state in
  self <- get ;;
  let p := py_add (py_abs TDerror) (E self) in
  prob <- lift (py_pow p (alpha self)) ;;
  (if (next_index self <? length (buffer self))%nat
   then
     modify (set_buffer (fun b => <[next_index self := experience]> b)) ;;
     old <- lift (getitem (priorities self) (Z.of_nat (next_index self))) ;;
     modify (set_priority_sum (fun s => py_add s (py_sub prob old))) ;;
     modify (set_priorities (fun ps => <[next_index self := prob]> ps))
   else
     modify (set_buffer (fun b => b ++ [experience])) ;;
     modify (set_priorities (fun ps => ps ++ [prob])) ;;
     modify (set_priority_sum (fun s => py_add s prob))) ;;
  self <- get ;;
  n <- lift (py_mod (next_index self + 1) (buffer_size self)) ;;
  modify (set_next_index n).

Definition updatePriority (idx : Z) (TDerror : num) : M t unit :=
  self <- get ;;
  let p := py_add (py_abs TDerror) (E self) in
  prob <- lift (py_pow p (alpha self)) ;;
  old <- lift (getitem (priorities self) idx) ;;
  modify (set_priority_sum (fun s => py_add s (py_sub prob old))) ;;
  self <- get ;;
  ps <- lift (setitem (priorities self) idx prob) ;;
  modify (set_priorities (fun _ => ps)).

(** The body of [sample], which reads only [priorities] and
    [priority_sum]; [u] is the value of [np.random.random()]. *)
Definition sample_from (priorities : list num) (priority_sum : num) (u : R)
    : res nat :=
  res_bind (res_mapM (fun prior => py_div prior priority_sum) priorities)
    (fun pmf =>
       let cmf := np_cumsum pmf in
       let idx := count_lt cmf u in
       Ok idx).

Definition sample (u : R) : M t nat :=
  self <- get ;;
  lift (sample_from (priorities self) (priority_sum self) u).

End PrioritizedER.

(** ** [class AsymmetricPrioritizedER(PrioritizedER)] *)

Module AsymmetricPrioritizedER.

Record t := Make {
  base : PrioritizedER.t;
  penalty : num
}.

Definition set_base (b : PrioritizedER.t) (self : t) : t := Make b (penalty self).

Definition init (buffer_size : nat) (alpha E penalty : num) : t :=
  Make (PrioritizedER.init buffer_size alpha E) penalty.

Definition store (state action : Z) (reward : num) (next_state : Z)
    (TDerror : num) : M t unit :=
  self <- get ;;
  let TDerror := if py_lt TDerror zero then py_mul (penalty self) TDerror
                 else TDerror in
  super base set_base
    (PrioritizedER.store state action reward next_state TDerror).

Definition updatePriority (idx : Z) (TDerror : num) : M t unit :=
  self <- get ;;
  let TDerror := if py_lt TDerror zero then py_mul (penalty self) TDerror
                 else TDerror in
  super base set_base (PrioritizedER.updatePriority idx TDerror).

Definition sample (u : R) : M t nat :=
  super base set_base (PrioritizedER.sample u).

End AsymmetricPrioritizedER.

(** ** [class RarePrioritizedER(PrioritizedER)] *)

Module RarePrioritizedER.

(** [proportion] is the attribute that [sample] rebuilds on every call;
    before the first [sample] it does not exist, which is [[]] here. *)
Record t := Make {
  base : PrioritizedER.t;
  F_mat : ndarray;
  proportion : list num
}.

Definition set_base (b : PrioritizedER.t) (self : t) : t :=
  Make b (F_mat self) (proportion self).
Definition set_F_mat (m : ndarray) (self : t) : t :=
  Make (base self) m (proportion self).
Definition set_proportion (f : list num -> list num) (self : t) : t :=
  Make (base self) (F_mat self) (f (proportion self)).

Definition init (buffer_size : nat) (alpha E : num) (num_state num_action : nat) : t :=
  Make (PrioritizedER.init buffer_size alpha E) (np_zeros num_state num_action) [].

Definition store (state action : Z) (reward : num) (next_state : Z)
    (TDerror : num) : M t unit :=
  super base set_base
    (PrioritizedER.store state action reward next_state TDerror) ;;
  self <- get ;;
  m <- lift (inccell (F_mat self) state action) ;;
  modify (set_F_mat m).

Definition updatePriority (idx : Z) (TDerror : num) : M t unit :=
  super base set_base (PrioritizedER.updatePriority idx TDerror).

(** Lines 123-128 of [sample]: the probability mass function. *)
Definition mass : M t (list num) :=
  modify (set_proportion (fun _ => [])) ;;
  self <- get ;;
  for_each (PrioritizedER.buffer (base self)) (fun x =>
    self <- get ;;
    f <- lift (getcell (F_mat self) (state x) (action x)) ;;
    f1 <- lift (py_pow f one) ;;
    w <- lift (py_div one f1) ;;
    modify (set_proportion (fun l => l ++ [w]))) ;;
  self <- get ;;
  modified_prior <- lift (np_multiply (PrioritizedER.priorities (base self))
                                      (proportion self)) ;;
  pmf <- lift (np_divide modified_prior (py_sum modified_prior)) ;;
  ret pmf.

Definition sample (u : R) : M t nat :=
  pmf <- mass ;;
  let cmf := np_cumsum pmf in
  let idx := count_lt cmf u in
  ret idx.

End RarePrioritizedER.

(** ** [class ThresholdPrioritizedER(PrioritizedER)] *)

Module ThresholdPrioritizedER.

(** [is_counted] is the attribute that [sample] rebuilds on every call;
    before the first [sample] it does not exist, which is [[]] here. *)
Record t := Make {
  base : PrioritizedER.t;
  threshold : num;
  U_mat : ndarray;
  is_counted : list num
}.

Definition set_base (b : PrioritizedER.t) (self : t) : t :=
  Make b (threshold self) (U_mat self) (is_counted self).
Definition set_U_mat (m : ndarray) (self : t) : t :=
  Make (base self) (threshold self) m (is_counted self).
Definition set_is_counted (f : list num -> list num) (self : t) : t :=
  Make (base self) (threshold self) (U_mat self) (f (is_counted self)).

Definition init (buffer_size : nat) (alpha E : num) (num_state num_action : nat)
    (threshold : num) : t :=
  Make (PrioritizedER.init buffer_size alpha E) threshold
       (np_zeros num_state num_action) [].

Definition store (state action : Z) (reward : num) (next_state : Z)
    (TDerror : num) : M t unit :=
  super base set_base
    (PrioritizedER.store state action reward next_state TDerror).

Definition updatePriority (idx : Z) (TDerror : num) : M t unit :=
  super base set_base (PrioritizedER.updatePriority idx TDerror).

(** Lines 150-158 of [sample]: the probability mass function. *)
Definition mass : M t (list num) :=
  modify (set_is_counted (fun _ => [])) ;;
  self <- get ;;
  for_each (PrioritizedER.buffer (base self)) (fun x =>
    self <- get ;;
    c <- lift (getcell (U_mat self) (state x) (action x)) ;;
    modify (set_is_counted (fun l => l ++ [py_int (py_lt c (threshold self))]))) ;;
  self <- get ;;
  modified_prior <- lift (np_multiply (PrioritizedER.priorities (base self))
                                      (is_counted self)) ;;
  if py_eq (py_sum modified_prior) zero
  then
    lift (list_divide (PrioritizedER.priorities (base self))
                      (py_sum (PrioritizedER.priorities (base self))))
  else
    lift (np_divide modified_prior (py_sum modified_prior)).

Definition sample (u : R) : M t nat :=
  pmf <- mass ;;
  let cmf := np_cumsum pmf in
  let idx := count_lt cmf u in
  self <- get ;;
  x <- lift (getitem (PrioritizedER.buffer (base self)) (Z.of_nat idx)) ;;
  m <- lift (inccell (U_mat self) (state x) (action x)) ;;
  modify (set_U_mat m) ;;
  ret idx.

End ThresholdPrioritizedER.

(** ** [class SoftmaxPrioritizedER(PrioritizedER)] *)

Module SoftmaxPrioritizedER.

(** The constructor does not call the base constructor: there is no
    [alpha] and no [E]. *)
Record t := Make {
  buffer_size : nat;
  buffer : list experience;
  next_index : nat;
  priorities : list num;
  priority_sum : num
}.

Definition set_buffer (f : list experience -> list experience) (self : t) : t :=
  Make (buffer_size self) (f (buffer self)) (next_index self)
       (priorities self) (priority_sum self).
Definition set_next_index (n : nat) (self : t) : t :=
  Make (buffer_size self) (buffer self) n (priorities self) (priority_sum self).
Definition set_priorities (f : list num -> list num) (self : t) : t :=
  Make (buffer_size self) (buffer self) (next_index self)
       (f (priorities self)) (priority_sum self).
Definition set_priority_sum (f : num -> num) (self : t) : t :=
  Make (buffer_size self) (buffer self) (next_index self)
       (priorities self) (f (priority_sum self)).

Definition init (buffer_size : nat) : t := Make buffer_size [] 0 [] zero.

Definition store (state action : Z) (reward : num) (next_state : Z)
    (TDerror : num) : M t unit :=
  let experience := Experience state action reward next_state in
  let prob := np_exp (py_abs TDerror) in
  self <- get ;;
  (if (next_index self <? length (buffer self))%nat
   then
     modify (set_buffer (fun b => <[next_index self := experience]> b)) ;;
     old <- lift (getitem (priorities self) (Z.of_nat (next_index self))) ;;
     modify (set_priority_sum (fun s => py_add s (py_sub prob old))) ;;
     modify (set_priorities (fun ps => <[next_index self := prob]> ps))
   else
     modify (set_buffer (fun b => b ++ [experience])) ;;
     modify (set_priorities (fun ps => ps ++ [prob])) ;;
     modify (set_priority_sum (fun s => py_add s prob))) ;;
  self <- get ;;
  n <- lift (py_mod (next_index self + 1) (buffer_size self)) ;;
  modify (set_next_index n).

Definition updatePriority (idx : Z) (TDerror : num) : M t unit :=
  let prob := np_exp (py_abs TDerror) in
  self <- get ;;
  old <- lift (getitem (priorities self) idx) ;;
  modify (set_priority_sum (fun s => py_add s (py_sub prob old))) ;;
  self <- get ;;
  ps <- lift (setitem (priorities self) idx prob) ;;
  modify (set_priorities (fun _ => ps)).

(** Inherited from [PrioritizedER]. *)
Definition sample (u : R) : M t nat :=
  self <- get ;;
  lift (PrioritizedER.sample_from (priorities self) (priority_sum self) u).

End SoftmaxPrioritizedER.

(** ** The six policies behind one interface *)

Inductive replay :=
| Uniform (r : ExperienceReplay.t)
| Prioritized (r : PrioritizedER.t)
| Asymmetric (r : AsymmetricPrioritizedER.t)
| Rarity (r : RarePrioritizedER.t)
| Threshold (r : ThresholdPrioritizedER.t)
| Softmax (r : SoftmaxPrioritizedER.t).

(** Constructor calls. *)
Inductive ctor :=
| NewUniform (buffer_size : nat)
| NewPrioritized (buffer_size : nat) (alpha E : num)
| NewAsymmetric (buffer_size : nat) (alpha E penalty : num)
| NewRarity (buffer_size : nat) (alpha E : num) (num_state num_action : nat)
| NewThreshold (buffer_size : nat) (alpha E : num) (num_state num_action : nat)
    (threshold : num)
| NewSoftmax (buffer_size : nat).

Definition construct (c : ctor) : replay :=
  match c with
  | NewUniform n => Uniform (ExperienceReplay.init n)
  | NewPrioritized n a e => Prioritized (PrioritizedER.init n a e)
  | NewAsymmetric n a e p => Asymmetric (AsymmetricPrioritizedER.init n a e p)
  | NewRarity n a e ns na => Rarity (RarePrioritizedER.init n a e ns na)
  | NewThreshold n a e ns na th =>
      Threshold (ThresholdPrioritizedER.init n a e ns na th)
  | NewSoftmax n => Softmax (SoftmaxPrioritizedER.init n)
  end.

(** Method calls; [Sample] carries the generator's outputs: [u] for
    [np.random.random()] and [draw] for [np.random.randint]. *)
Inductive call :=
| Store (state action : Z) (reward : num) (next_state : Z) (TDerror : num)
| UpdatePriority (idx : Z) (TDerror : num)
| Sample (u : R) (draw : nat).

Definition on {S A} (wrap : S -> replay) (m : M S A) (s : S) : outcome replay A :=
  match m s with
  | Returns a s' => Returns a (wrap s')
  | Raises e s' => Raises e (wrap s')
  | NotReal => NotReal
  end.

Definition store (st ac : Z) (rw : num) (ns : Z) (td : num) : M replay unit :=
  fun r =>
    match r with
    | Uniform s => on Uniform (ExperienceReplay.store st ac rw ns) s
    | Prioritized s => on Prioritized (PrioritizedER.store st ac rw ns td) s
    | Asymmetric s => on Asymmetric (AsymmetricPrioritizedER.store st ac rw ns td) s
    | Rarity s => on Rarity (RarePrioritizedER.store st ac rw ns td) s
    | Threshold s => on Threshold (ThresholdPrioritizedER.store st ac rw ns td) s
    | Softmax s => on Softmax (SoftmaxPrioritizedER.store st ac rw ns td) s
    end.

Definition updatePriority (idx : Z) (td : num) : M replay unit :=
  fun r =>
    match r with
    | Uniform s => on Uniform (ExperienceReplay.updatePriority idx td) s
    | Prioritized s => on Prioritized (PrioritizedER.updatePriority idx td) s
    | Asymmetric s => on Asymmetric (AsymmetricPrioritizedER.updatePriority idx td) s
    | Rarity s => on Rarity (RarePrioritizedER.updatePriority idx td) s
    | Threshold s => on Threshold (ThresholdPrioritizedER.updatePriority idx td) s
    | Softmax s => on Softmax (SoftmaxPrioritizedER.updatePriority idx td) s
    end.

Definition sample (u : R) (draw : nat) : M replay nat :=
  fun r =>
    match r with
    | Uniform s => on Uniform (ExperienceReplay.sample draw) s
    | Prioritized s => on Prioritized (PrioritizedER.sample u) s
    | Asymmetric s => on Asymmetric (AsymmetricPrioritizedER.sample u) s
    | Rarity s => on Rarity (RarePrioritizedER.sample u) s
    | Threshold s => on Threshold (ThresholdPrioritizedER.sample u) s
    | Softmax s => on Softmax (SoftmaxPrioritizedER.sample u) s
    end.

Definition perform (c : call) : M replay unit :=
  match c with
  | Store st ac rw ns td => store st ac rw ns td
  | UpdatePriority idx td => updatePriority idx td
  | Sample u draw => sample u draw ;; ret tt
  end.

(** A caller making the calls [cs] in order; an exception ends the run. *)
Definition run (cs : list call) : M replay unit := for_each cs perform.

(** Attribute access through the interface. *)
Definition buffer_size (r : replay) : nat :=
  match r with
  | Uniform s => ExperienceReplay.buffer_size s
  | Prioritized s => PrioritizedER.buffer_size s
  | Asymmetric s => PrioritizedER.buffer_size (AsymmetricPrioritizedER.base s)
  | Rarity s => PrioritizedER.buffer_size (RarePrioritizedER.base s)
  | Threshold s => PrioritizedER.buffer_size (ThresholdPrioritizedER.base s)
  | Softmax s => SoftmaxPrioritizedER.buffer_size s
  end.

Definition buffer (r : replay) : list experience :=
  match r with
  | Uniform s => ExperienceReplay.buffer s
  | Prioritized s => PrioritizedER.buffer s
  | Asymmetric s => PrioritizedER.buffer (AsymmetricPrioritizedER.base s)
  | Rarity s => PrioritizedER.buffer (RarePrioritizedER.base s)
  | Threshold s => PrioritizedER.buffer (ThresholdPrioritizedER.base s)
  | Softmax s => SoftmaxPrioritizedER.buffer s
  end.

Definition next_index (r : replay) : nat :=
  match r with
  | Uniform s => ExperienceReplay.next_index s
  | Prioritized s => PrioritizedER.next_index s
  | Asymmetric s => PrioritizedER.next_index (AsymmetricPrioritizedER.base s)
  | Rarity s => PrioritizedER.next_index (RarePrioritizedER.base s)
  | Threshold s => PrioritizedER.next_index (ThresholdPrioritizedER.base s)
  | Softmax s => SoftmaxPrioritizedER.next_index s
  end.

(** The uniform policy has no priority table. *)
Definition priorities (r : replay) : option (list num) :=
  match r with
  | Uniform _ => None
  | Prioritized s => Some (PrioritizedER.priorities s)
  | Asymmetric s => Some (PrioritizedER.priorities (AsymmetricPrioritizedER.base s))
  | Rarity s => Some (PrioritizedER.priorities (RarePrioritizedER.base s))
  | Threshold s => Some (PrioritizedER.priorities (ThresholdPrioritizedER.base s))
  | Softmax s => Some (SoftmaxPrioritizedER.priorities s)
  end.

Definition priority_sum (r : replay) : option num :=
  match r with
  | Uniform _ => None
  | Prioritized s => Some (PrioritizedER.priority_sum s)
  | Asymmetric s => Some (PrioritizedER.priority_sum (AsymmetricPrioritizedER.base s))
  | Rarity s => Some (PrioritizedER.priority_sum (RarePrioritizedER.base s))
  | Threshold s => Some (PrioritizedER.priority_sum (ThresholdPrioritizedER.base s))
  | Softmax s => Some (SoftmaxPrioritizedER.priority_sum s)
  end.

(** How far the cached sum is from the exact sum of the table. *)
Definition drift (r : replay) : R :=
  match priorities r, priority_sum r with
  | Some ps, Some s => (val s - total ps)%R
  | _, _ => 0%R
  end.

(** The state in which a call leaves the instance, when it has one. *)
Definition state_after {A} (o : outcome replay A) : option replay :=
  match o with
  | Returns _ s => Some s
  | Raises _ s => Some s
  | NotReal => None
  end.

(** ** Notions used in the statements *)

Definition per_drift (s : PrioritizedER.t) : R :=
  (val (PrioritizedER.priority_sum s) - total (PrioritizedER.priorities s))%R.

Definition soft_drift (s : SoftmaxPrioritizedER.t) : R :=
  (val (SoftmaxPrioritizedER.priority_sum s)
   - total (SoftmaxPrioritizedER.priorities s))%R.

(** [keeps d m]: whatever [m] does, the quantity [d] of the instance is
    the same afterwards. *)
Definition keeps {S A T} (d : S -> T) (m : M S A) : Prop :=
  forall s, match m s with
            | Returns _ s' => d s' = d s
            | Raises _ s' => d s' = d s
            | NotReal => True
            end.

(** A quantity of the instance, given on the three classes that hold the
    attributes; the subclasses keep them in their base part. *)
Definition quantity {T} (du : ExperienceReplay.t -> T)
    (dp : PrioritizedER.t -> T) (ds : SoftmaxPrioritizedER.t -> T)
    (r : replay) : T :=
  match r with
  | Uniform s => du s
  | Prioritized s => dp s
  | Asymmetric s => dp (AsymmetricPrioritizedER.base s)
  | Rarity s => dp (RarePrioritizedER.base s)
  | Threshold s => dp (ThresholdPrioritizedER.base s)
  | Softmax s => ds s
  end.

(** The call that stores the transition [x] with signal [td]. *)
Definition store_call (a : experience * num) : call :=
  Store (state (fst a)) (action (fst a)) (reward (fst a)) (next_state (fst a))
        (snd a).

(** [ring_write r x r']: [r'] is [r] after writing [x] at the cursor
    (overwriting the slot there, or appending when the cursor is past the
    end) and advancing the cursor modulo the capacity. *)
Definition ring_write (r : replay) (x : experience) (r' : replay) : Prop :=
  buffer_size r' = buffer_size r
  /\ buffer r' = (if (next_index r <? length (buffer r))%nat
                  then <[next_index r := x]> (buffer r)
                  else buffer r ++ [x])
  /\ next_index r' = ((next_index r + 1) mod buffer_size r)%nat.


(** How much longer the priority table is than the buffer. *)
Definition per_skew (s : PrioritizedER.t) : Z :=
  (Z.of_nat (length (PrioritizedER.priorities s))
   - Z.of_nat (length (PrioritizedER.buffer s)))%Z.
Definition soft_skew (s : SoftmaxPrioritizedER.t) : Z :=
  (Z.of_nat (length (SoftmaxPrioritizedER.priorities s))
   - Z.of_nat (length (SoftmaxPrioritizedER.buffer s)))%Z.
Definition skew : replay -> Z := quantity (fun _ => 0%Z) per_skew soft_skew.

(** The floor [E] of the policies that have one. *)
Definition E_of : replay -> option num :=
  quantity (fun _ => None) (fun s => Some (PrioritizedER.E s)) (fun _ => None).

Definition floor_positive (r : replay) : Prop :=
  match E_of r with
  | Some e => (0 < val e)%R
  | None => True
  end.

(** The shape of the occurrence table of the Rarity policy. *)
Definition F_shape (r : replay) : option (nat * nat) :=
  match r with
  | Rarity s => Some (nrows (RarePrioritizedER.F_mat s),
                      ncols (RarePrioritizedER.F_mat s))
  | _ => None
  end.

(** [(state, action)] addresses a cell of a table of the given shape. *)
Definition in_shape (shape : option (nat * nat)) (x : experience) : Prop :=
  match shape with
  | Some (rows, cols) =>
      py_index rows (state x) <> None /\ py_index cols (action x) <> None
  | None => True
  end.

(** The probability mass function of the priority-weighted policy: every
    priority divided by the cached sum. *)
Definition mass_function (priorities : list num) (priority_sum : num) : list num :=
  map (fun prior => Num (val prior / val priority_sum)
                        (join (kd prior) (kd priority_sum)))
      priorities.

(** The first index of [l] whose entry satisfies [P]; [length l] when
    there is none. *)
Fixpoint first_index (P : R -> bool) (l : list R) : nat :=
  match l with
  | [] => 0
  | c :: l' => if P c then 0 else S (first_index P l')
  end.

(** An instance that some caller can have: a fresh one after some calls. *)
Definition reachable (r : replay) : Prop :=
  exists (c : ctor) (cs : list call), state_after (run cs (construct c)) = Some r.

(** The outcome of a call of the base class, seen on the subclass. *)
Definition map_state {S S' A} (f : S -> S') (o : outcome S A) : outcome S' A :=
  match o with
  | Returns a s => Returns a (f s)
  | Raises e s => Raises e (f s)
  | NotReal => NotReal
  end.


(** How often the pair of [x] has been stored, according to the table [m]. *)
Definition occurrences (m : ndarray) (x : experience) : R :=
  match cell_index m (state x) (action x) with
  | Some (a, b) => cell m a b
  | None => 0%R
  end.




(** ** Notions used in the further properties *)

(** [preserves P m]: if [P] holds of the instance before [m], it holds of
    the instance that [m] leaves, whether [m] returns or raises. *)
Definition preserves {S A} (P : S -> Prop) (m : M S A) : Prop :=
  forall s, P s ->
    match m s with
    | Returns _ s' => P s'
    | Raises _ s' => P s'
    | NotReal => True
    end.

(** The shape of a ring of capacity [bs]: still filling with the cursor
    at the end, or full with the cursor inside. *)
Definition ring_shape (bs : nat) (buf : list experience) (ni : nat) : Prop :=
  bs <> 0%nat
  /\ ((length buf < bs /\ ni = length buf)%nat
      \/ (length buf = bs /\ ni < bs)%nat).

Definition within_capacity : replay -> Prop :=
  quantity
    (fun s => ring_shape (ExperienceReplay.buffer_size s)
                (ExperienceReplay.buffer s) (ExperienceReplay.next_index s))
    (fun s => ring_shape (PrioritizedER.buffer_size s)
                (PrioritizedER.buffer s) (PrioritizedER.next_index s))
    (fun s => ring_shape (SoftmaxPrioritizedER.buffer_size s)
                (SoftmaxPrioritizedER.buffer s)
                (SoftmaxPrioritizedER.next_index s)).


(** Under [alpha = 0] every stored priority is [1]. *)
Definition per_flat (s : PrioritizedER.t) : Prop :=
  val (PrioritizedER.alpha s) = 0%R
  /\ forall p, p ∈ PrioritizedER.priorities s -> val p = 1%R.
Definition priorities_flat : replay -> Prop :=
  quantity (fun _ => True) per_flat (fun _ => True).

(** The attributes of the replay classes proper, without what the
    subclasses add. *)
Definition core : replay -> replay := quantity Uniform Prioritized Softmax.

(** The exponent [alpha] of the policies that have one. *)
Definition alpha_of : replay -> option num :=
  quantity (fun _ => None) (fun s => Some (PrioritizedER.alpha s)) (fun _ => None).


(** The mask of a buffered transition under the Threshold policy:
    [int(U[state, action] < threshold)]. *)
Definition quota_mask (U : ndarray) (threshold : num) (x : experience) : num :=
  py_int (py_lt (Num (occurrences U x) Np) threshold).

(** The masked priorities of the Threshold policy. *)
Definition masked_priorities (s : ThresholdPrioritizedER.t) : list num :=
  zip_with (fun x y => Num (val x * val y) Np)
    (PrioritizedER.priorities (ThresholdPrioritizedER.base s))
    (map (quota_mask (ThresholdPrioritizedER.U_mat s)
                     (ThresholdPrioritizedER.threshold s))
         (PrioritizedER.buffer (ThresholdPrioritizedER.base s))).

(** Whether [(state, action)] of [x] addresses cell [(a, b)] of a table
    with [rows] rows and [cols] columns. *)
Definition addresses (rows cols : nat) (x : experience) (a b : nat) : bool :=
  match py_index rows (state x), py_index cols (action x) with
  | Some a', Some b' => (a' =? a)%nat && (b' =? b)%nat
  | _, _ => false
  end.

(** The transitions that the [Store] calls of a run carry, in order. *)
Fixpoint stored (cs : list call) : list experience :=
  match cs with
  | [] => []
  | Store st ac rw ns _ :: cs' => Experience st ac rw ns :: stored cs'
  | _ :: cs' => stored cs'
  end.

(** How many of the transitions [xs] address cell [(a, b)]. *)
Fixpoint count_addressing (rows cols : nat) (xs : list experience) (a b : nat)
    : nat :=
  match xs with
  | [] => 0
  | x :: xs' =>
      (if addresses rows cols x a b then 1 else 0)
      + count_addressing rows cols xs' a b
  end.

(** What the Rarity policy needs of its occurrence table: no negative
    count, and every buffered pair inside the table with a count of at
    least one. *)
Definition rarity_ready (s : RarePrioritizedER.t) : Prop :=
  (forall a b, (0 <= cell (RarePrioritizedER.F_mat s) a b)%R)
  /\ forall x, x ∈ PrioritizedER.buffer (RarePrioritizedER.base s) ->
       in_shape (Some (nrows (RarePrioritizedER.F_mat s),
                       ncols (RarePrioritizedER.F_mat s))) x
       /\ (1 <= occurrences (RarePrioritizedER.F_mat s) x)%R.

(** * Properties *)

(** ** Sums, indexing *)

Section Lists.
Local Open Scope R_scope.

Lemma total_app (l : list num) (x : num) : total (l ++ [x]) = total l + val x.
Proof. induction l as [|y l IH]; simpl; [lra | rewrite IH; lra]. Qed.

Lemma total_insert (l : list num) (i : nat) (x old : num) :
  l !! i = Some old -> total (<[i := x]> l) = total l + (val x - val old).
Proof.
  revert i; induction l as [|y l IH]; intros [|i] H; simpl in *; try discriminate.
  - injection H as ->. lra.
  - rewrite (IH _ H). lra.
Qed.

Lemma py_index_lt (len : nat) (i : Z) (k : nat) :
  py_index len i = Some k -> (k < len)%nat.
Proof.
  unfold py_index.
  destruct (Z.leb_spec 0 i); [destruct (Z.ltb_spec i (Z.of_nat len)) |
                              destruct (Z.leb_spec (- Z.of_nat len) i)];
    intros [= <-]; lia.
Qed.

Lemma py_index_of_nat (len k : nat) :
  (k < len)%nat -> py_index len (Z.of_nat k) = Some k.
Proof.
  intros H. unfold py_index.
  destruct (Z.leb_spec 0 (Z.of_nat k)); [|lia].
  destruct (Z.ltb_spec (Z.of_nat k) (Z.of_nat len)); [|lia].
  now rewrite Nat2Z.id.
Qed.

Lemma getitem_Ok {A} (l : list A) (i : Z) (x : A) :
  getitem l i = Ok x ->
  exists k, py_index (length l) i = Some k /\ l !! k = Some x.
Proof.
  unfold getitem. destruct (py_index (length l) i) as [k|]; [|discriminate].
  destruct (l !! k) as [y|] eqn:Hk; [|discriminate].
  intros [= ->]. now exists k.
Qed.

Lemma getitem_nat_Ok {A} (l : list A) (n : nat) (x : A) :
  getitem l (Z.of_nat n) = Ok x -> l !! n = Some x.
Proof.
  intros H. destruct (getitem_Ok _ _ _ H) as (k & Hi & Hk).
  pose proof (py_index_lt _ _ _ Hi) as Hlt.
  assert (Hn : (n < length l)%nat).
  { unfold py_index in Hi.
    destruct (Z.leb_spec 0 (Z.of_nat n)); [|lia].
    destruct (Z.ltb_spec (Z.of_nat n) (Z.of_nat (length l))); [lia|discriminate]. }
  rewrite (py_index_of_nat _ _ Hn) in Hi. now injection Hi as ->.
Qed.

Lemma getitem_in_range {A} (l : list A) (i : Z) (k : nat) :
  py_index (length l) i = Some k -> exists x, l !! k = Some x /\ getitem l i = Ok x.
Proof.
  intros Hi. pose proof (py_index_lt _ _ _ Hi) as Hlt.
  destruct (lookup_lt_is_Some_2 l k Hlt) as [x Hx].
  exists x. split; [assumption|]. unfold getitem. now rewrite Hi, Hx.
Qed.


End Lists.

(** ** Quantities that no call changes *)

Section Keeps.
Context {S T : Type} (d : S -> T).

Lemma keeps_ret {A} (a : A) : keeps d (ret a).
Proof. intros s; reflexivity. Qed.

Lemma keeps_get : keeps d get.
Proof. intros s; reflexivity. Qed.

Lemma keeps_lift {A} (r : res A) : keeps d (lift r).
Proof. intros s; unfold lift; destruct r; reflexivity. Qed.

Lemma keeps_bind {A B} (m : M S A) (k : A -> M S B) :
  keeps d m -> (forall a, keeps d (k a)) -> keeps d (bind m k).
Proof.
  intros Hm Hk s. unfold bind. specialize (Hm s).
  destruct (m s) as [a s'|e s'|]; [|assumption|exact I].
  specialize (Hk a s'). destruct (k a s'); [| |exact I]; congruence.
Qed.

Lemma keeps_modify (f : S -> S) :
  (forall s, d (f s) = d s) -> keeps d (modify f).
Proof. intros H s; simpl; apply H. Qed.

Lemma keeps_for_each {A} (l : list A) (body : A -> M S unit) :
  (forall x, keeps d (body x)) -> keeps d (for_each l body).
Proof.
  intros H. induction l as [|x l IH]; simpl.
  - apply keeps_ret.
  - apply keeps_bind; [apply H | intros _; exact IH].
Qed.

Lemma keeps_super {B A} (db : B -> T) (proj : S -> B)
    (upd : B -> S -> S) (m : M B A) :
  (forall s, d s = db (proj s)) -> (forall b s, proj (upd b s) = b) ->
  keeps db m -> keeps d (super proj upd m).
Proof.
  intros Hd Hp Hm s. unfold super. specialize (Hm (proj s)).
  destruct (m (proj s)); [| |exact I]; rewrite !Hd, Hp; assumption.
Qed.

End Keeps.

Lemma keeps_on {S A T} (d : S -> T) (q : replay -> T) (wrap : S -> replay)
    (m : M S A) :
  (forall s, q (wrap s) = d s) -> keeps d m ->
  forall s, match on wrap m s with
            | Returns _ r => q r = q (wrap s)
            | Raises _ r => q r = q (wrap s)
            | NotReal => True
            end.
Proof.
  intros Hd Hm s. unfold on. specialize (Hm s).
  destruct (m s); [| |exact I]; rewrite !Hd; assumption.
Qed.

(** A quantity kept by the methods of the three classes that own the
    attributes is kept by every method of every policy. *)
Section Lifting.
Context {T : Type}.
Variable du : ExperienceReplay.t -> T.
Variable dp : PrioritizedER.t -> T.
Variable ds : SoftmaxPrioritizedER.t -> T.
Hypothesis uniform_store :
  forall st ac rw ns, keeps du (ExperienceReplay.store st ac rw ns).
Hypothesis per_store :
  forall st ac rw ns td, keeps dp (PrioritizedER.store st ac rw ns td).
Hypothesis per_update :
  forall idx td, keeps dp (PrioritizedER.updatePriority idx td).
Hypothesis soft_store :
  forall st ac rw ns td, keeps ds (SoftmaxPrioritizedER.store st ac rw ns td).
Hypothesis soft_update :
  forall idx td, keeps ds (SoftmaxPrioritizedER.updatePriority idx td).

Ltac keeps_step :=
  first
    [ apply per_store
    | apply per_update
    | apply (keeps_super _ dp); [reflexivity | reflexivity |]
    | apply keeps_ret
    | apply keeps_get
    | apply keeps_lift
    | apply keeps_modify; intros; reflexivity
    | apply keeps_for_each; intros
    | apply keeps_bind; [|intros] ].

Lemma store_keeps st ac rw ns td :
  keeps (quantity du dp ds) (store st ac rw ns td).
Proof.
  intros [s|s|s|s|s|s]; unfold store.
  - apply (keeps_on du); [reflexivity|]. apply uniform_store.
  - apply (keeps_on dp); [reflexivity|]. apply per_store.
  - apply (keeps_on (fun x => dp (AsymmetricPrioritizedER.base x)));
      [reflexivity|].
    unfold AsymmetricPrioritizedER.store. repeat keeps_step.
  - apply (keeps_on (fun x => dp (RarePrioritizedER.base x))); [reflexivity|].
    unfold RarePrioritizedER.store. repeat keeps_step.
  - apply (keeps_on (fun x => dp (ThresholdPrioritizedER.base x)));
      [reflexivity|].
    unfold ThresholdPrioritizedER.store. repeat keeps_step.
  - apply (keeps_on ds); [reflexivity|]. apply soft_store.
Qed.

Lemma updatePriority_keeps idx td :
  keeps (quantity du dp ds) (updatePriority idx td).
Proof.
  intros [s|s|s|s|s|s]; unfold updatePriority.
  - apply (keeps_on du); [reflexivity|]. apply keeps_ret.
  - apply (keeps_on dp); [reflexivity|]. apply per_update.
  - apply (keeps_on (fun x => dp (AsymmetricPrioritizedER.base x)));
      [reflexivity|].
    unfold AsymmetricPrioritizedER.updatePriority. repeat keeps_step.
  - apply (keeps_on (fun x => dp (RarePrioritizedER.base x))); [reflexivity|].
    unfold RarePrioritizedER.updatePriority. repeat keeps_step.
  - apply (keeps_on (fun x => dp (ThresholdPrioritizedER.base x)));
      [reflexivity|].
    unfold ThresholdPrioritizedER.updatePriority. repeat keeps_step.
  - apply (keeps_on ds); [reflexivity|]. apply soft_update.
Qed.

Lemma sample_keeps u draw : keeps (quantity du dp ds) (sample u draw).
Proof.
  intros [s|s|s|s|s|s]; unfold sample.
  - apply (keeps_on du); [reflexivity|].
    unfold ExperienceReplay.sample. repeat keeps_step.
  - apply (keeps_on dp); [reflexivity|].
    unfold PrioritizedER.sample. repeat keeps_step.
  - apply (keeps_on (fun x => dp (AsymmetricPrioritizedER.base x)));
      [reflexivity|].
    unfold AsymmetricPrioritizedER.sample, PrioritizedER.sample.
    repeat keeps_step.
  - apply (keeps_on (fun x => dp (RarePrioritizedER.base x))); [reflexivity|].
    unfold RarePrioritizedER.sample, RarePrioritizedER.mass. repeat keeps_step.
  - apply (keeps_on (fun x => dp (ThresholdPrioritizedER.base x)));
      [reflexivity|].
    unfold ThresholdPrioritizedER.sample, ThresholdPrioritizedER.mass.
    repeat keeps_step. destruct (py_eq _ _); keeps_step.
  - apply (keeps_on ds); [reflexivity|].
    unfold SoftmaxPrioritizedER.sample. repeat keeps_step.
Qed.

Lemma perform_keeps (c : call) : keeps (quantity du dp ds) (perform c).
Proof.
  destruct c; simpl.
  - apply store_keeps.
  - apply updatePriority_keeps.
  - apply keeps_bind; [apply sample_keeps | intros; apply keeps_ret].
Qed.

Lemma run_keeps (cs : list call) : keeps (quantity du dp ds) (run cs).
Proof. apply keeps_for_each. apply perform_keeps. Qed.

End Lifting.

(** ** The cached sum moves with the table *)

Section Drift.
Local Open Scope R_scope.

Lemma setitem_after_getitem {A} (l : list A) (i : Z) (old x : A) :
  getitem l i = Ok old ->
  exists k, l !! k = Some old /\ setitem l i x = Ok (<[k := x]> l).
Proof.
  intros H. destruct (getitem_Ok _ _ _ H) as (k & Hi & Hk).
  exists k. split; [assumption|]. unfold setitem. now rewrite Hi.
Qed.

Lemma PrioritizedER_store_drift st ac rw ns td :
  keeps per_drift (PrioritizedER.store st ac rw ns td).
Proof.
  intros s. unfold PrioritizedER.store, bind, get, lift, modify.
  destruct (py_pow _ _) as [prob| |]; [|reflexivity|exact I].
  destruct (Nat.ltb_spec (PrioritizedER.next_index s)
              (length (PrioritizedER.buffer s))) as [Hlt|Hge].
  - destruct (getitem _ _) as [old| |] eqn:Hold; [| |exact I].
    + apply getitem_nat_Ok in Hold.
      assert (Hd : per_drift
                (PrioritizedER.set_priorities
                   (fun ps => <[PrioritizedER.next_index s := prob]> ps)
                   (PrioritizedER.set_priority_sum
                      (fun x => py_add x (py_sub prob old))
                      (PrioritizedER.set_buffer
                         (fun b => <[PrioritizedER.next_index s :=
                                       Experience st ac rw ns]> b) s)))
              = per_drift s).
      { unfold per_drift; simpl. rewrite (total_insert _ _ _ _ Hold). lra. }
      destruct (py_mod _ _); simpl; [| |exact I]; exact Hd.
    + reflexivity.
  - assert (Hd : per_drift
                (PrioritizedER.set_priority_sum (fun x => py_add x prob)
                   (PrioritizedER.set_priorities (fun ps => ps ++ [prob])
                      (PrioritizedER.set_buffer
                         (fun b => b ++ [Experience st ac rw ns]) s)))
              = per_drift s).
    { unfold per_drift; simpl. rewrite total_app. lra. }
    destruct (py_mod _ _); simpl; [| |exact I]; exact Hd.
Qed.

Lemma PrioritizedER_updatePriority_drift idx td :
  keeps per_drift (PrioritizedER.updatePriority idx td).
Proof.
  intros s. unfold PrioritizedER.updatePriority, bind, get, lift, modify.
  destruct (py_pow _ _) as [prob| |]; [|reflexivity|exact I].
  destruct (getitem _ _) as [old| |] eqn:Hold; [|reflexivity|exact I].
  destruct (setitem_after_getitem _ _ _ prob Hold) as (k & Hk & Hset).
  simpl. rewrite Hset.
  unfold per_drift; simpl. rewrite (total_insert _ _ _ _ Hk). lra.
Qed.

Lemma SoftmaxPrioritizedER_store_drift st ac rw ns td :
  keeps soft_drift (SoftmaxPrioritizedER.store st ac rw ns td).
Proof.
  intros s. unfold SoftmaxPrioritizedER.store, bind, get, lift, modify.
  generalize (np_exp (py_abs td)); intros prob.
  destruct (Nat.ltb_spec (SoftmaxPrioritizedER.next_index s)
              (length (SoftmaxPrioritizedER.buffer s))) as [Hlt|Hge].
  - destruct (getitem _ _) as [old| |] eqn:Hold; [|reflexivity|exact I].
    apply getitem_nat_Ok in Hold.
    assert (Hd : soft_drift
              (SoftmaxPrioritizedER.set_priorities
                 (fun ps => <[SoftmaxPrioritizedER.next_index s := prob]> ps)
                 (SoftmaxPrioritizedER.set_priority_sum
                    (fun x => py_add x (py_sub prob old))
                    (SoftmaxPrioritizedER.set_buffer
                       (fun b => <[SoftmaxPrioritizedER.next_index s :=
                                     Experience st ac rw ns]> b) s)))
            = soft_drift s).
    { unfold soft_drift; simpl. rewrite (total_insert _ _ _ _ Hold). lra. }
    destruct (py_mod _ _); simpl; [| |exact I]; exact Hd.
  - assert (Hd : soft_drift
              (SoftmaxPrioritizedER.set_priority_sum (fun x => py_add x prob)
                 (SoftmaxPrioritizedER.set_priorities (fun ps => ps ++ [prob])
                    (SoftmaxPrioritizedER.set_buffer
                       (fun b => b ++ [Experience st ac rw ns]) s)))
            = soft_drift s).
    { unfold soft_drift; simpl. rewrite total_app. lra. }
    destruct (py_mod _ _); simpl; [| |exact I]; exact Hd.
Qed.

Lemma SoftmaxPrioritizedER_updatePriority_drift idx td :
  keeps soft_drift (SoftmaxPrioritizedER.updatePriority idx td).
Proof.
  intros s. unfold SoftmaxPrioritizedER.updatePriority, bind, get, lift, modify.
  generalize (np_exp (py_abs td)); intros prob.
  destruct (getitem _ _) as [old| |] eqn:Hold; [|reflexivity|exact I].
  destruct (setitem_after_getitem _ _ _ prob Hold) as (k & Hk & Hset).
  simpl. rewrite Hset.
  unfold soft_drift; simpl. rewrite (total_insert _ _ _ _ Hk). lra.
Qed.

Lemma ExperienceReplay_store_constant {T} (x : T) st ac rw ns :
  keeps (fun _ => x) (ExperienceReplay.store st ac rw ns).
Proof. intros s. destruct (ExperienceReplay.store _ _ _ _ s); reflexivity. Qed.

Lemma drift_quantity (r : replay) :
  drift r = quantity (fun _ => 0) per_drift soft_drift r.
Proof. destruct r; reflexivity. Qed.

Lemma perform_drift (c : call) : keeps drift (perform c).
Proof.
  intros r. rewrite drift_quantity.
  pose proof (perform_keeps (fun _ => 0) per_drift soft_drift
                (ExperienceReplay_store_constant 0)
                PrioritizedER_store_drift PrioritizedER_updatePriority_drift
                SoftmaxPrioritizedER_store_drift
                SoftmaxPrioritizedER_updatePriority_drift c r) as H.
  destruct (perform c r); [| |exact I]; rewrite drift_quantity; exact H.
Qed.

Lemma run_drift (cs : list call) : keeps drift (run cs).
Proof. apply keeps_for_each. apply perform_drift. Qed.

Lemma construct_drift (c : ctor) : drift (construct c) = 0.
Proof. destruct c; unfold drift; simpl; lra. Qed.

End Drift.

(** ** C1: priority-sum consistency *)

(** C1.  For every priority-based policy (Prioritized, Asymmetric,
    Rarity, Threshold, Softmax), in the state left by any sequence of
    calls made on a fresh instance, the cached [priority_sum] is exactly
    the sum of the priority table.  The cache is kept by delta updates
    only: from any state whatsoever, a call leaves the difference between
    the cache and the exact sum of the table unchanged, so an error in
    the cache would never be repaired by a rescan. *)
Theorem priority_sum_consistency (c : ctor) (cs : list call) (r : replay)
    (ps : list num) (s : num) :
  state_after (run cs (construct c)) = Some r ->
  priorities r = Some ps -> priority_sum r = Some s ->
  val s = total ps
  /\ (forall (r0 : replay) (c' : call) (r' : replay),
        state_after (perform c' r0) = Some r' -> drift r' = drift r0).
Proof.
  intros Hrun Hps Hs. split.
  - pose proof (run_drift cs (construct c)) as H.
    rewrite construct_drift in H.
    assert (Hd : drift r = 0%R).
    { destruct (run cs (construct c)); simpl in Hrun; try discriminate;
        injection Hrun as <-; exact H. }
    unfold drift in Hd. rewrite Hps, Hs in Hd. lra.
  - intros r0 c' r' Hc. pose proof (perform_drift c' r0) as H.
    destruct (perform c' r0); simpl in Hc; try discriminate;
      injection Hc as <-; exact H.
Qed.

Lemma priority_sum_consistency_witness :
  exists r ps s,
    state_after (run [Store 0 0 zero 1 one; Store 1 0 one 0 zero;
                      Store 0 1 zero 1 one; UpdatePriority (-1) zero]
                     (construct (NewSoftmax 2))) = Some r
    /\ priorities r = Some ps /\ priority_sum r = Some s
    /\ val s = total ps.
Proof.
  eexists _, _, _.
  assert (Hrun : state_after
            (run [Store 0 0 zero 1 one; Store 1 0 one 0 zero;
                  Store 0 1 zero 1 one; UpdatePriority (-1) zero]
                 (construct (NewSoftmax 2)))
          = Some (Softmax (SoftmaxPrioritizedER.Make 2
                [Experience 0 1 zero 1; Experience 1 0 one 0] 1
                [np_exp (py_abs one); np_exp (py_abs zero)]
                (py_add (py_add (py_add (py_add zero (np_exp (py_abs one)))
                                        (np_exp (py_abs zero)))
                           (py_sub (np_exp (py_abs one)) (np_exp (py_abs one))))
                   (py_sub (np_exp (py_abs zero)) (np_exp (py_abs zero)))))))
    by reflexivity.
  split; [exact Hrun|]. split; [reflexivity|]. split; [reflexivity|].
  exact (proj1 (priority_sum_consistency _ _ _ _ _ Hrun eq_refl eq_refl)).
Defined.

(** ** C2: the ring buffer *)

Section Ring.



Lemma PrioritizedER_store_ring st ac rw ns td s a s' :
  PrioritizedER.store st ac rw ns td s = Returns a s' ->
  PrioritizedER.buffer_size s <> 0%nat
  /\ ring_write (Prioritized s) (Experience st ac rw ns) (Prioritized s').
Proof.
  unfold PrioritizedER.store, bind, get, lift, modify, py_mod, ring_write.
  simpl.
  destruct (py_pow _ _) as [prob| |]; try discriminate.
  destruct (_ <? _)%nat; simpl.
  - destruct (getitem _ _) as [old| |]; try discriminate. simpl.
    destruct (Nat.eqb_spec (PrioritizedER.buffer_size s) 0);
      [discriminate | intros [= <- <-]; auto].
  - destruct (Nat.eqb_spec (PrioritizedER.buffer_size s) 0);
      [discriminate | intros [= <- <-]; auto].
Qed.






End Ring.

(** ** Well-formed instances and calls that return *)

Section WellFormed.
Local Open Scope R_scope.

Lemma Rltb_true (a b : R) : a < b -> Rltb a b = true.
Proof. intros H. unfold Rltb. destruct (Rlt_dec a b); [reflexivity|contradiction]. Qed.

Lemma Rltb_false (a b : R) : ~ a < b -> Rltb a b = false.
Proof. intros H. unfold Rltb. destruct (Rlt_dec a b); [contradiction|reflexivity]. Qed.

Lemma Reqb_true (a b : R) : a = b -> Reqb a b = true.
Proof. intros H. unfold Reqb. destruct (Req_dec_T a b); [reflexivity|contradiction]. Qed.

Lemma Reqb_false (a b : R) : a <> b -> Reqb a b = false.
Proof. intros H. unfold Reqb. destruct (Req_dec_T a b); [contradiction|reflexivity]. Qed.

Lemma py_pow_pos (x a : num) :
  0 < val x ->
  py_pow x a = Ok (Num (Rpower (val x) (val a)) (join (kd x) (kd a))).
Proof. intros H. unfold py_pow. now rewrite (Rltb_true _ _ H). Qed.


Lemma py_div_nonzero (x y : num) :
  val y <> 0 -> py_div x y = Ok (Num (val x / val y) (join (kd x) (kd y))).
Proof. intros H. unfold py_div. now rewrite (Reqb_false _ _ H). Qed.

Lemma base_positive (td e : num) : 0 < val e -> 0 < val (py_add (py_abs td) e).
Proof. intros H. simpl. pose proof (Rabs_pos (val td)). lra. Qed.

(** Methods that only go through the setters keep every attribute the
    setters do not touch. *)
Ltac keeps_fields :=
  repeat first
    [ apply keeps_ret
    | apply keeps_get
    | apply keeps_lift
    | apply keeps_modify; intros []; reflexivity
    | apply keeps_bind; [|intros]
    | match goal with |- keeps _ (if ?b then _ else _) => destruct b end ].

Lemma ExperienceReplay_store_buffer_size st ac rw ns :
  keeps ExperienceReplay.buffer_size (ExperienceReplay.store st ac rw ns).
Proof. unfold ExperienceReplay.store. keeps_fields. Qed.

Lemma PrioritizedER_store_buffer_size st ac rw ns td :
  keeps PrioritizedER.buffer_size (PrioritizedER.store st ac rw ns td).
Proof. unfold PrioritizedER.store. keeps_fields. Qed.

Lemma PrioritizedER_updatePriority_buffer_size idx td :
  keeps PrioritizedER.buffer_size (PrioritizedER.updatePriority idx td).
Proof. unfold PrioritizedER.updatePriority. keeps_fields. Qed.

Lemma SoftmaxPrioritizedER_store_buffer_size st ac rw ns td :
  keeps SoftmaxPrioritizedER.buffer_size (SoftmaxPrioritizedER.store st ac rw ns td).
Proof. unfold SoftmaxPrioritizedER.store. keeps_fields. Qed.

Lemma SoftmaxPrioritizedER_updatePriority_buffer_size idx td :
  keeps SoftmaxPrioritizedER.buffer_size (SoftmaxPrioritizedER.updatePriority idx td).
Proof. unfold SoftmaxPrioritizedER.updatePriority. keeps_fields. Qed.

Lemma buffer_size_quantity (r : replay) :
  buffer_size r = quantity ExperienceReplay.buffer_size
                    PrioritizedER.buffer_size SoftmaxPrioritizedER.buffer_size r.
Proof. destruct r; reflexivity. Qed.

Lemma perform_buffer_size (c : call) : keeps buffer_size (perform c).
Proof.
  intros r. rewrite buffer_size_quantity.
  pose proof (perform_keeps _ _ _ ExperienceReplay_store_buffer_size
                PrioritizedER_store_buffer_size
                PrioritizedER_updatePriority_buffer_size
                SoftmaxPrioritizedER_store_buffer_size
                SoftmaxPrioritizedER_updatePriority_buffer_size c r) as H.
  destruct (perform c r); [| |exact I]; rewrite buffer_size_quantity; exact H.
Qed.

Lemma PrioritizedER_store_E st ac rw ns td :
  keeps (fun s => Some (PrioritizedER.E s)) (PrioritizedER.store st ac rw ns td).
Proof. unfold PrioritizedER.store. keeps_fields. Qed.

Lemma PrioritizedER_updatePriority_E idx td :
  keeps (fun s => Some (PrioritizedER.E s)) (PrioritizedER.updatePriority idx td).
Proof. unfold PrioritizedER.updatePriority. keeps_fields. Qed.

Lemma SoftmaxPrioritizedER_store_constant {T} (x : T) st ac rw ns td :
  keeps (fun _ => x) (SoftmaxPrioritizedER.store st ac rw ns td).
Proof. intros s. destruct (SoftmaxPrioritizedER.store _ _ _ _ _ s); reflexivity. Qed.

Lemma SoftmaxPrioritizedER_updatePriority_constant {T} (x : T) idx td :
  keeps (fun _ => x) (SoftmaxPrioritizedER.updatePriority idx td).
Proof. intros s. destruct (SoftmaxPrioritizedER.updatePriority _ _ s); reflexivity. Qed.

Lemma perform_E (c : call) : keeps E_of (perform c).
Proof.
  apply perform_keeps.
  - intros; apply ExperienceReplay_store_constant.
  - apply PrioritizedER_store_E.
  - apply PrioritizedER_updatePriority_E.
  - intros; apply SoftmaxPrioritizedER_store_constant.
  - intros; apply SoftmaxPrioritizedER_updatePriority_constant.
Qed.

Lemma PrioritizedER_store_skew st ac rw ns td :
  keeps per_skew (PrioritizedER.store st ac rw ns td).
Proof.
  intros s. unfold PrioritizedER.store, bind, get, lift, modify.
  destruct (py_pow _ _) as [prob| |]; [|reflexivity|exact I].
  destruct (_ <? _)%nat.
  - destruct (getitem _ _) as [old| |]; [| |exact I].
    + destruct (py_mod _ _); simpl; [| |exact I];
        unfold per_skew; simpl; rewrite !length_insert; reflexivity.
    + unfold per_skew; simpl; rewrite !length_insert; reflexivity.
  - destruct (py_mod _ _); simpl; [| |exact I];
      unfold per_skew; simpl; rewrite !length_app; simpl; lia.
Qed.

Lemma PrioritizedER_updatePriority_skew idx td :
  keeps per_skew (PrioritizedER.updatePriority idx td).
Proof.
  intros s. unfold PrioritizedER.updatePriority, bind, get, lift, modify.
  destruct (py_pow _ _) as [prob| |]; [|reflexivity|exact I].
  destruct (getitem _ _) as [old| |] eqn:Hold; [|reflexivity|exact I].
  destruct (setitem_after_getitem _ _ _ prob Hold) as (k & Hk & Hset).
  simpl. rewrite Hset. unfold per_skew; simpl. now rewrite length_insert.
Qed.

Lemma SoftmaxPrioritizedER_store_skew st ac rw ns td :
  keeps soft_skew (SoftmaxPrioritizedER.store st ac rw ns td).
Proof.
  intros s. unfold SoftmaxPrioritizedER.store, bind, get, lift, modify.
  destruct (_ <? _)%nat.
  - destruct (getitem _ _) as [old| |]; [| |exact I].
    + destruct (py_mod _ _); simpl; [| |exact I];
        unfold soft_skew; simpl; rewrite !length_insert; reflexivity.
    + unfold soft_skew; simpl; rewrite !length_insert; reflexivity.
  - destruct (py_mod _ _); simpl; [| |exact I];
      unfold soft_skew; simpl; rewrite !length_app; simpl; lia.
Qed.

Lemma SoftmaxPrioritizedER_updatePriority_skew idx td :
  keeps soft_skew (SoftmaxPrioritizedER.updatePriority idx td).
Proof.
  intros s. unfold SoftmaxPrioritizedER.updatePriority, bind, get, lift, modify.
  destruct (getitem _ _) as [old| |] eqn:Hold; [|reflexivity|exact I].
  destruct (setitem_after_getitem _ _ _ (np_exp (py_abs td)) Hold)
    as (k & Hk & Hset).
  simpl. rewrite Hset. unfold soft_skew; simpl. now rewrite length_insert.
Qed.

Lemma perform_skew (c : call) : keeps skew (perform c).
Proof.
  apply perform_keeps.
  - intros; apply ExperienceReplay_store_constant.
  - apply PrioritizedER_store_skew.
  - apply PrioritizedER_updatePriority_skew.
  - apply SoftmaxPrioritizedER_store_skew.
  - apply SoftmaxPrioritizedER_updatePriority_skew.
Qed.

Lemma construct_skew (c : ctor) : skew (construct c) = 0%Z.
Proof. destruct c; reflexivity. Qed.

(** In every state a caller can reach from a fresh instance, the
    priority table is as long as the buffer. *)
Lemma reachable_skew (c : ctor) (cs : list call) (r : replay) :
  state_after (run cs (construct c)) = Some r -> skew r = 0%Z.
Proof.
  intros H. pose proof (keeps_for_each skew cs perform perform_skew (construct c)) as K.
  fold (run cs) in K. rewrite construct_skew in K.
  destruct (run cs (construct c)); simpl in H; try discriminate;
    injection H as <-; exact K.
Qed.

Lemma PrioritizedER_store_returns st ac rw ns td (s : PrioritizedER.t) :
  PrioritizedER.buffer_size s <> 0%nat -> per_skew s = 0%Z ->
  0 < val (PrioritizedER.E s) ->
  exists s', PrioritizedER.store st ac rw ns td s = Returns tt s'.
Proof.
  intros Hbs Hskew HE. unfold per_skew in Hskew.
  unfold PrioritizedER.store, bind, get, lift, modify, py_mod.
  rewrite (py_pow_pos _ _ (base_positive td _ HE)).
  destruct (Nat.ltb_spec (PrioritizedER.next_index s)
              (length (PrioritizedER.buffer s))) as [Hlt|Hge]; simpl.
  - destruct (getitem_in_range (PrioritizedER.priorities s)
                (Z.of_nat (PrioritizedER.next_index s))
                (PrioritizedER.next_index s)) as (old & _ & ->);
      [apply py_index_of_nat; lia|].
    simpl. destruct (Nat.eqb_spec (PrioritizedER.buffer_size s) 0);
      [contradiction|]. eexists; reflexivity.
  - destruct (Nat.eqb_spec (PrioritizedER.buffer_size s) 0);
      [contradiction|]. eexists; reflexivity.
Qed.

Lemma SoftmaxPrioritizedER_store_returns st ac rw ns td
    (s : SoftmaxPrioritizedER.t) :
  SoftmaxPrioritizedER.buffer_size s <> 0%nat -> soft_skew s = 0%Z ->
  exists s', SoftmaxPrioritizedER.store st ac rw ns td s = Returns tt s'.
Proof.
  intros Hbs Hskew. unfold soft_skew in Hskew.
  unfold SoftmaxPrioritizedER.store, bind, get, lift, modify, py_mod.
  destruct (Nat.ltb_spec (SoftmaxPrioritizedER.next_index s)
              (length (SoftmaxPrioritizedER.buffer s))) as [Hlt|Hge]; simpl.
  - destruct (getitem_in_range (SoftmaxPrioritizedER.priorities s)
                (Z.of_nat (SoftmaxPrioritizedER.next_index s))
                (SoftmaxPrioritizedER.next_index s)) as (old & _ & ->);
      [apply py_index_of_nat; lia|].
    simpl. destruct (Nat.eqb_spec (SoftmaxPrioritizedER.buffer_size s) 0);
      [contradiction|]. eexists; reflexivity.
  - destruct (Nat.eqb_spec (SoftmaxPrioritizedER.buffer_size s) 0);
      [contradiction|]. eexists; reflexivity.
Qed.

Lemma inccell_in_shape (m : ndarray) (x : experience) :
  in_shape (Some (nrows m, ncols m)) x ->
  exists m', inccell m (state x) (action x) = Ok m'
             /\ nrows m' = nrows m /\ ncols m' = ncols m.
Proof.
  intros [Hr Hc]. unfold inccell, cell_index.
  destruct (py_index (nrows m) (state x)); [|contradiction].
  destruct (py_index (ncols m) (action x)); [|contradiction].
  eexists; split; [reflexivity|]. split; reflexivity.
Qed.

(** A store on a well-formed instance returns. *)
Lemma store_returns (x : experience) (td : num) (r : replay) :
  buffer_size r <> 0%nat -> skew r = 0%Z -> floor_positive r ->
  in_shape (F_shape r) x ->
  exists r', perform (store_call (x, td)) r = Returns tt r'
             /\ F_shape r' = F_shape r.
Proof.
  intros Hbs Hskew HE Hcell. simpl.
  destruct r as [s|s|s|s|s|s]; unfold store, on; simpl in *.
  - unfold ExperienceReplay.store, bind, get, lift, modify, py_mod.
    destruct (_ <? _)%nat; simpl;
      (destruct (Nat.eqb_spec (ExperienceReplay.buffer_size s) 0);
       [contradiction|]); eexists; split; reflexivity.
  - destruct (PrioritizedER_store_returns (state x) (action x) (reward x)
                (next_state x) td s Hbs Hskew HE) as [s' ->].
    eexists; split; reflexivity.
  - unfold AsymmetricPrioritizedER.store, bind, get, super.
    destruct (PrioritizedER_store_returns (state x) (action x) (reward x)
                (next_state x)
                (if py_lt td zero
                 then py_mul (AsymmetricPrioritizedER.penalty s) td else td)
                _ Hbs Hskew HE) as [s' ->].
    eexists; split; reflexivity.
  - unfold RarePrioritizedER.store, bind, get, super, lift, modify.
    destruct (PrioritizedER_store_returns (state x) (action x) (reward x)
                (next_state x) td _ Hbs Hskew HE) as [s' ->].
    simpl.
    destruct (inccell_in_shape (RarePrioritizedER.F_mat s) x Hcell)
      as (m' & -> & Hr & Hc).
    eexists; split; [reflexivity|]. simpl. now rewrite Hr, Hc.
  - unfold ThresholdPrioritizedER.store, super.
    destruct (PrioritizedER_store_returns (state x) (action x) (reward x)
                (next_state x) td _ Hbs Hskew HE) as [s' ->].
    eexists; split; reflexivity.
  - destruct (SoftmaxPrioritizedER_store_returns (state x) (action x)
                (reward x) (next_state x) td s Hbs Hskew) as [s' ->].
    eexists; split; reflexivity.
Qed.

Lemma returns_keeps {T} (d : replay -> T) (c : call) (r r' : replay) :
  keeps d (perform c) -> perform c r = Returns tt r' -> d r' = d r.
Proof. intros K H. specialize (K r). now rewrite H in K. Qed.

Lemma run_stores_return (args : list (experience * num)) :
  forall r : replay,
    buffer_size r <> 0%nat -> skew r = 0%Z -> floor_positive r ->
    Forall (in_shape (F_shape r)) (map fst args) ->
    exists r', run (map store_call args) r = Returns tt r'.
Proof.
  induction args as [|[x td] args IH]; intros r Hbs Hskew HE Hcells.
  - exists r; reflexivity.
  - simpl in Hcells. apply Forall_cons_1 in Hcells as [Hx Hrest].
    destruct (store_returns x td r Hbs Hskew HE Hx) as (r1 & Hst & Hshape).
    destruct (IH r1) as [r' Hr'].
    + rewrite (returns_keeps buffer_size _ _ _ (perform_buffer_size _) Hst).
      exact Hbs.
    + rewrite (returns_keeps skew _ _ _ (perform_skew _) Hst). exact Hskew.
    + unfold floor_positive.
      rewrite (returns_keeps E_of _ _ _ (perform_E _) Hst). exact HE.
    + rewrite Hshape. exact Hrest.
    + exists r'.
      change (run (map store_call ((x, td) :: args)) r)
        with (bind (perform (store_call (x, td)))
                   (fun _ => run (map store_call args)) r).
      unfold bind. rewrite Hst. exact Hr'.
Qed.

(** Stores on a fresh instance with a capacity of at least one, a
    positive floor [E] and, for the Rarity policy, states and actions
    within the occurrence table, all return. *)
Lemma fresh_stores_return (c : ctor) (args : list (experience * num)) :
  (1 <= buffer_size (construct c))%nat -> floor_positive (construct c) ->
  Forall (in_shape (F_shape (construct c))) (map fst args) ->
  exists r, run (map store_call args) (construct c) = Returns tt r.
Proof.
  intros Hbs HE Hcells.
  apply run_stores_return; [lia | apply construct_skew | exact HE | exact Hcells].
Qed.

End WellFormed.

(** ** C2: statement *)



(** ** Evaluating calls *)

Section Evaluation.
Local Open Scope R_scope.

Lemma run_cons (c : call) (cs : list call) (r : replay) :
  run (c :: cs) r = match perform c r with
                    | Returns _ r' => run cs r'
                    | Raises e r' => Raises e r'
                    | NotReal => NotReal
                    end.
Proof. reflexivity. Qed.

Lemma res_mapM_Ok {A B} (f : A -> res B) (g : A -> B) (l : list A) :
  (forall x, x ∈ l -> f x = Ok (g x)) -> res_mapM f l = Ok (map g l).
Proof.
  induction l as [|x l IH]; intros H; simpl; [reflexivity|].
  rewrite (H x) by (left). simpl.
  rewrite IH by (intros y Hy; apply H; now right). reflexivity.
Qed.

Lemma PrioritizedER_store_append st ac rw ns td (s : PrioritizedER.t) (prob : num) :
  py_pow (py_add (py_abs td) (PrioritizedER.E s)) (PrioritizedER.alpha s) = Ok prob ->
  (length (PrioritizedER.buffer s) <= PrioritizedER.next_index s)%nat ->
  PrioritizedER.buffer_size s <> 0%nat ->
  PrioritizedER.store st ac rw ns td s
  = Returns tt
      (PrioritizedER.Make (PrioritizedER.buffer_size s)
         (PrioritizedER.buffer s ++ [Experience st ac rw ns])
         ((PrioritizedER.next_index s + 1) mod PrioritizedER.buffer_size s)
         (PrioritizedER.alpha s) (PrioritizedER.E s)
         (PrioritizedER.priorities s ++ [prob])
         (py_add (PrioritizedER.priority_sum s) prob)).
Proof.
  intros Hpow Hge Hbs.
  unfold PrioritizedER.store, bind, get, lift, modify, py_mod. rewrite Hpow.
  destruct (Nat.ltb_spec (PrioritizedER.next_index s)
              (length (PrioritizedER.buffer s))); [lia|]. simpl.
  destruct (Nat.eqb_spec (PrioritizedER.buffer_size s) 0); [contradiction|].
  reflexivity.
Qed.

Lemma PrioritizedER_store_overwrite st ac rw ns td (s : PrioritizedER.t)
    (prob old : num) :
  py_pow (py_add (py_abs td) (PrioritizedER.E s)) (PrioritizedER.alpha s) = Ok prob ->
  (PrioritizedER.next_index s < length (PrioritizedER.buffer s))%nat ->
  PrioritizedER.priorities s !! PrioritizedER.next_index s = Some old ->
  PrioritizedER.buffer_size s <> 0%nat ->
  PrioritizedER.store st ac rw ns td s
  = Returns tt
      (PrioritizedER.Make (PrioritizedER.buffer_size s)
         (<[PrioritizedER.next_index s := Experience st ac rw ns]>
            (PrioritizedER.buffer s))
         ((PrioritizedER.next_index s + 1) mod PrioritizedER.buffer_size s)
         (PrioritizedER.alpha s) (PrioritizedER.E s)
         (<[PrioritizedER.next_index s := prob]> (PrioritizedER.priorities s))
         (py_add (PrioritizedER.priority_sum s) (py_sub prob old))).
Proof.
  intros Hpow Hlt Hold Hbs.
  unfold PrioritizedER.store, bind, get, lift, modify, py_mod. rewrite Hpow.
  destruct (Nat.ltb_spec (PrioritizedER.next_index s)
              (length (PrioritizedER.buffer s))); [|lia]. simpl.
  assert (Hget : getitem (PrioritizedER.priorities s)
                   (Z.of_nat (PrioritizedER.next_index s)) = Ok old).
  { unfold getitem.
    rewrite py_index_of_nat by (apply lookup_lt_Some in Hold; exact Hold).
    now rewrite Hold. }
  rewrite Hget. simpl.
  destruct (Nat.eqb_spec (PrioritizedER.buffer_size s) 0); [contradiction|].
  reflexivity.
Qed.


Lemma sample_from_nonzero (ps : list num) (sum : num) (u : R) :
  val sum <> 0 ->
  PrioritizedER.sample_from ps sum u
  = Ok (count_lt (np_cumsum (mass_function ps sum)) u).
Proof.
  intros H. unfold PrioritizedER.sample_from.
  rewrite (res_mapM_Ok _ (fun prior => Num (val prior / val sum)
                                         (join (kd prior) (kd sum)))).
  - reflexivity.
  - intros x _. now apply py_div_nonzero.
Qed.

(** Prefix sums of non-negative masses never decrease, so the entries
    below [u] are exactly those before the first entry not below [u]. *)
Lemma count_lt_above (l : list num) (acc u : R) :
  u <= acc -> (forall x, x ∈ l -> 0 <= val x) ->
  count_lt (cumsum_from acc l) u = 0%nat.
Proof.
  revert acc. induction l as [|x l IH]; intros acc Hacc Hpos; simpl; [reflexivity|].
  assert (Hx : 0 <= val x) by (apply Hpos; left).
  rewrite Rltb_false by lra.
  rewrite IH; [reflexivity | lra | intros y Hy; apply Hpos; now right].
Qed.

Lemma count_lt_first_index (l : list num) (acc u : R) :
  (forall x, x ∈ l -> 0 <= val x) ->
  count_lt (cumsum_from acc l) u
  = first_index (fun c => negb (Rltb c u)) (cumsum_from acc l).
Proof.
  revert acc. induction l as [|x l IH]; intros acc Hpos; simpl; [reflexivity|].
  assert (Hl : forall y, y ∈ l -> 0 <= val y) by (intros y Hy; apply Hpos; now right).
  destruct (Rlt_dec (acc + val x) u) as [Hlt|Hge].
  - rewrite !(Rltb_true _ _ Hlt). simpl. now rewrite (IH _ Hl).
  - rewrite !(Rltb_false _ _ Hge). simpl.
    apply count_lt_above; [lra | exact Hl].
Qed.

Lemma mass_function_nonneg (ps : list num) (sum : num) :
  0 < val sum -> (forall p, p ∈ ps -> 0 <= val p) ->
  forall x, x ∈ mass_function ps sum -> 0 <= val x.
Proof.
  intros Hs Hps x Hx. unfold mass_function in Hx.
  apply list_elem_of_fmap in Hx as (p & -> & Hp). simpl.
  apply Rmult_le_pos; [now apply Hps|].
  left. now apply Rinv_0_lt_compat.
Qed.

End Evaluation.

(** ** C3: sampling by inversion of the cumulative mass *)

Section Inversion.
Local Open Scope R_scope.

(** C3 (as amended).  For the priority-weighted policy with a positive
    [priority_sum] and non-negative priorities, [sample()] with the
    uniform draw [u] returns exactly the number of cumulative-mass
    entries strictly less than [u], the mass function being each stored
    priority divided by [priority_sum] and the cumulative masses its
    prefix sums; equivalently, the first index whose cumulative mass is
    not less than [u] (at least [u], rather than exceeding it). *)
Theorem sample_inverts_cumulative_mass (s : PrioritizedER.t) (u : R) :
  0 < val (PrioritizedER.priority_sum s) ->
  (forall p, p ∈ PrioritizedER.priorities s -> 0 <= val p) ->
  let cmf := np_cumsum (mass_function (PrioritizedER.priorities s)
                                      (PrioritizedER.priority_sum s)) in
  PrioritizedER.sample u s = Returns (count_lt cmf u) s
  /\ count_lt cmf u = first_index (fun c => negb (Rltb c u)) cmf.
Proof.
  intros Hsum Hps cmf. split.
  - unfold PrioritizedER.sample, bind, get, lift.
    rewrite sample_from_nonzero by lra. reflexivity.
  - apply count_lt_first_index. now apply mass_function_nonneg.
Qed.

(** Two transitions stored with signal [0] under [alpha = 1], [E = 1]:
    both priorities are [1]. *)
Lemma pow_one_one : py_pow (py_add (py_abs zero) one) one = Ok (Num 1 Py).
Proof.
  rewrite py_pow_pos by (simpl; rewrite Rabs_R0; lra).
  simpl. rewrite Rabs_R0, Rplus_0_l, Rpower_1 by lra. reflexivity.
Qed.

Lemma two_equal_priorities :
  run [Store 0 0 zero 0 zero; Store 0 0 zero 0 zero]
      (construct (NewPrioritized 2 one one))
  = Returns tt
      (Prioritized
         (PrioritizedER.Make 2 [Experience 0 0 zero 0; Experience 0 0 zero 0] 0
            one one [Num 1 Py; Num 1 Py]
            (py_add (py_add zero (Num 1 Py)) (Num 1 Py)))).
Proof.
  rewrite run_cons. simpl perform. unfold on.
  rewrite (PrioritizedER_store_append _ _ _ _ _ _ (Num 1 Py))
    by (first [exact pow_one_one | simpl; lia]).
  rewrite run_cons. simpl perform. unfold on.
  rewrite (PrioritizedER_store_append _ _ _ _ _ _ (Num 1 Py))
    by (first [exact pow_one_one | simpl; lia]).
  reflexivity.
Qed.

Lemma half_of_two : 0 + 1 / (0 + 1 + 1) = 1 / 2.
Proof. field. Qed.

Lemma sample_inverts_cumulative_mass_witness :
  let s := PrioritizedER.Make 2 [Experience 0 0 zero 0; Experience 0 0 zero 0] 0
             one one [Num 1 Py; Num 1 Py]
             (py_add (py_add zero (Num 1 Py)) (Num 1 Py)) in
  PrioritizedER.sample (1 / 2) s = Returns 0%nat s.
Proof.
  intros s.
  assert (Hsum : 0 < val (PrioritizedER.priority_sum s)) by (simpl; lra).
  assert (Hps : forall p, p ∈ PrioritizedER.priorities s -> 0 <= val p).
  { intros p Hp. simpl in Hp.
    apply elem_of_cons in Hp as [->|Hp]; [simpl; lra|].
    apply elem_of_cons in Hp as [->|Hp]; [simpl; lra|].
    inversion Hp. }
  destruct (sample_inverts_cumulative_mass s (1 / 2) Hsum Hps) as [Hsample _].
  rewrite Hsample. f_equal.
  simpl. rewrite half_of_two. rewrite !Rltb_false by lra. reflexivity.
Defined.

Lemma sample_first_exceeding_counterexample :
  ~ (forall (s : PrioritizedER.t) (u : R),
        reachable (Prioritized s) -> PrioritizedER.buffer s <> [] ->
        0 <= u < 1 ->
        forall (idx : nat) (s' : PrioritizedER.t),
          PrioritizedER.sample u s = Returns idx s' ->
          idx = first_index (fun c => Rltb u c)
                  (np_cumsum (mass_function (PrioritizedER.priorities s)
                                            (PrioritizedER.priority_sum s)))).
Proof.
  intros H.
  set (s := PrioritizedER.Make 2
              [Experience 0 0 zero 0; Experience 0 0 zero 0] 0
              one one [Num 1 Py; Num 1 Py]
              (py_add (py_add zero (Num 1 Py)) (Num 1 Py))).
  assert (Hreach : reachable (Prioritized s)).
  { exists (NewPrioritized 2 one one),
           [Store 0 0 zero 0 zero; Store 0 0 zero 0 zero].
    now rewrite two_equal_priorities. }
  assert (Hsample : PrioritizedER.sample (1 / 2) s = Returns 0%nat s).
  { unfold PrioritizedER.sample, bind, get, lift.
    rewrite sample_from_nonzero by (simpl; lra).
    simpl. rewrite half_of_two. rewrite !Rltb_false by lra. reflexivity. }
  specialize (H s (1 / 2) Hreach ltac:(discriminate) ltac:(lra) _ _ Hsample).
  simpl in H. rewrite half_of_two in H.
  rewrite (Rltb_false (1 / 2) (1 / 2)) in H by lra.
  rewrite (Rltb_true (1 / 2) (1 / 2 + 1 / (0 + 1 + 1))) in H by lra.
  discriminate H.
Qed.

End Inversion.

(** ** C4: the end-to-end scenario *)

Section Scenario.
Local Open Scope R_scope.

Lemma pow_floor (k : R) :
  0 <= k ->
  py_pow (py_add (py_abs (Num k Py)) (Num (1 / 100) Py)) one
  = Ok (Num (Rpower (Rabs k + 1 / 100) 1) Py)
  /\ Rpower (Rabs k + 1 / 100) 1 = k + 1 / 100.
Proof.
  intros Hk. rewrite py_pow_pos by (simpl; rewrite Rabs_pos_eq by lra; lra).
  split; [reflexivity|].
  rewrite Rabs_pos_eq by lra. apply Rpower_1. lra.
Qed.

(** C4.  For the priority-weighted policy constructed with
    [buffer_size = 3], [alpha = 1], [E = 0.01], after storing four
    transitions with signals 1, 2, 3, 4 in that order: slot 0 of the
    buffer holds the fourth transition, and [priority_sum] is exactly the
    sum of the priorities [(|signal| + E) ** alpha] of transitions 2, 3
    and 4 (2.01 + 3.01 + 4.01), the priority of transition 1 being gone
    from the sum and from the table. *)
Theorem end_to_end_scenario (x1 x2 x3 x4 : experience) :
  exists (s : PrioritizedER.t) (p2 p3 p4 : num),
    run [store_call (x1, Num 1 Py); store_call (x2, Num 2 Py);
         store_call (x3, Num 3 Py); store_call (x4, Num 4 Py)]
        (construct (NewPrioritized 3 one (Num (1 / 100) Py)))
    = Returns tt (Prioritized s)
    /\ py_pow (py_add (py_abs (Num 2 Py)) (PrioritizedER.E s))
              (PrioritizedER.alpha s) = Ok p2
    /\ py_pow (py_add (py_abs (Num 3 Py)) (PrioritizedER.E s))
              (PrioritizedER.alpha s) = Ok p3
    /\ py_pow (py_add (py_abs (Num 4 Py)) (PrioritizedER.E s))
              (PrioritizedER.alpha s) = Ok p4
    /\ PrioritizedER.buffer s !! 0%nat = Some x4
    /\ PrioritizedER.buffer s = [x4; x2; x3]
    /\ PrioritizedER.priorities s = [p4; p2; p3]
    /\ val (PrioritizedER.priority_sum s) = val p2 + val p3 + val p4
    /\ val (PrioritizedER.priority_sum s) = 201 / 100 + 301 / 100 + 401 / 100.
Proof.
  destruct x1 as [s1 a1 r1 n1], x2 as [s2 a2 r2 n2], x3 as [s3 a3 r3 n3],
           x4 as [s4 a4 r4 n4].
  destruct (pow_floor 1 ltac:(lra)) as [H1 V1].
  destruct (pow_floor 2 ltac:(lra)) as [H2 V2].
  destruct (pow_floor 3 ltac:(lra)) as [H3 V3].
  destruct (pow_floor 4 ltac:(lra)) as [H4 V4].
  eexists _, _, _, _.
  split.
  { rewrite run_cons. simpl perform. unfold on.
    rewrite (PrioritizedER_store_append _ _ _ _ _ _
               (Num (Rpower (Rabs 1 + 1 / 100) 1) Py))
      by (first [exact H1 | simpl; lia]).
    rewrite run_cons. simpl perform. unfold on.
    rewrite (PrioritizedER_store_append _ _ _ _ _ _
               (Num (Rpower (Rabs 2 + 1 / 100) 1) Py))
      by (first [exact H2 | simpl; lia]).
    rewrite run_cons. simpl perform. unfold on.
    rewrite (PrioritizedER_store_append _ _ _ _ _ _
               (Num (Rpower (Rabs 3 + 1 / 100) 1) Py))
      by (first [exact H3 | simpl; lia]).
    rewrite run_cons. simpl perform. unfold on.
    rewrite (PrioritizedER_store_overwrite _ _ _ _ _ _
               (Num (Rpower (Rabs 4 + 1 / 100) 1) Py)
               (Num (Rpower (Rabs 1 + 1 / 100) 1) Py))
      by (first [exact H4 | reflexivity | simpl; lia]).
    reflexivity. }
  split; [exact H2|]. split; [exact H3|]. split; [exact H4|].
  split; [reflexivity|]. split; [reflexivity|]. split; [reflexivity|].
  simpl. split; lra.
Qed.

End Scenario.

(** ** C10 and C7: the asymmetric policy *)

Section Asymmetry.
Local Open Scope R_scope.

(** C10.  For every signal [>= 0] and any state of the containers, the
    Asymmetric policy's [store] and [updatePriority] do exactly what the
    base priority-weighted policy does on the same containers with the
    same arguments: same return or exception, same resulting buffer,
    priorities, [priority_sum] and [next_index]; the penalty is left as
    it was.  The penalty only matters for strictly negative signals. *)
Theorem asymmetric_nonnegative_signal (s : AsymmetricPrioritizedER.t)
    (st ac : Z) (rw : num) (ns : Z) (idx : Z) (td : num) :
  0 <= val td ->
  AsymmetricPrioritizedER.store st ac rw ns td s
  = map_state (fun b => AsymmetricPrioritizedER.Make b
                          (AsymmetricPrioritizedER.penalty s))
      (PrioritizedER.store st ac rw ns td (AsymmetricPrioritizedER.base s))
  /\ AsymmetricPrioritizedER.updatePriority idx td s
     = map_state (fun b => AsymmetricPrioritizedER.Make b
                             (AsymmetricPrioritizedER.penalty s))
         (PrioritizedER.updatePriority idx td (AsymmetricPrioritizedER.base s)).
Proof.
  intros Htd.
  assert (Hlt : py_lt td zero = false) by (apply Rltb_false; simpl; lra).
  unfold AsymmetricPrioritizedER.store, AsymmetricPrioritizedER.updatePriority,
    bind, get, super. rewrite Hlt. split.
  - destruct (PrioritizedER.store _ _ _ _ _ _); reflexivity.
  - destruct (PrioritizedER.updatePriority _ _ _); reflexivity.
Qed.

Lemma asymmetric_nonnegative_signal_witness :
  let s := AsymmetricPrioritizedER.init 2 one one (Num (1 / 2) Py) in
  AsymmetricPrioritizedER.store 0 0 zero 1 one s
  = map_state (fun b => AsymmetricPrioritizedER.Make b (Num (1 / 2) Py))
      (PrioritizedER.store 0 0 zero 1 one (PrioritizedER.init 2 one one)).
Proof.
  intros s.
  assert (H : 0 <= val one) by (simpl; lra).
  exact (proj1 (asymmetric_nonnegative_signal s 0 0 zero 1 0 one H)).
Defined.









End Asymmetry.

(** ** C8: sampling from an empty buffer *)

Section EmptyBuffer.
Local Open Scope R_scope.

(** C8 (as amended).  With no transition in the buffer, [sample()] of the
    Uniform policy raises [ValueError] (from [np.random.randint(0)]),
    and [sample()] of the Prioritized, Asymmetric, Rarity and Softmax
    policies raises nothing: it returns index [0].  No policy has an
    empty-buffer error of its own. *)
Theorem sample_on_empty_buffer (r : replay) (u : R) (draw : nat) :
  buffer r = [] -> skew r = 0%Z ->
  match r with
  | Uniform _ => sample u draw r = Raises ValueError r
  | Threshold _ => True
  | _ => exists r', sample u draw r = Returns 0%nat r' /\ buffer r' = []
  end.
Proof.
  intros Hbuf Hskew.
  destruct r as [s|s|s|s|s|s]; simpl in Hbuf, Hskew; try exact I.
  - unfold sample, on, ExperienceReplay.sample, bind, get, lift.
    rewrite Hbuf. reflexivity.
  - unfold per_skew in Hskew. rewrite Hbuf in Hskew.
    destruct (PrioritizedER.priorities s) as [|p ps] eqn:Hps;
      [|simpl in Hskew; lia].
    exists (Prioritized s). split; [|exact Hbuf].
    unfold sample, on, PrioritizedER.sample, bind, get, lift.
    rewrite Hps. reflexivity.
  - unfold per_skew in Hskew. rewrite Hbuf in Hskew.
    destruct (PrioritizedER.priorities (AsymmetricPrioritizedER.base s))
      as [|p ps] eqn:Hps; [|simpl in Hskew; lia].
    exists (Asymmetric s). split; [|exact Hbuf].
    unfold sample, on, AsymmetricPrioritizedER.sample, super,
      PrioritizedER.sample, bind, get, lift.
    rewrite Hps. destruct s; reflexivity.
  - unfold per_skew in Hskew. rewrite Hbuf in Hskew.
    destruct (PrioritizedER.priorities (RarePrioritizedER.base s))
      as [|p ps] eqn:Hps; [|simpl in Hskew; lia].
    exists (Rarity (RarePrioritizedER.set_proportion (fun _ => []) s)).
    split; [|exact Hbuf].
    destruct s as [b F pr]. simpl in Hbuf, Hps.
    unfold sample, on, RarePrioritizedER.sample, RarePrioritizedER.mass,
      bind, get, lift, modify. simpl. rewrite Hbuf. simpl. rewrite Hps.
    reflexivity.
  - unfold soft_skew in Hskew. rewrite Hbuf in Hskew.
    destruct (SoftmaxPrioritizedER.priorities s) as [|p ps] eqn:Hps;
      [|simpl in Hskew; lia].
    exists (Softmax s). split; [|exact Hbuf].
    unfold sample, on, SoftmaxPrioritizedER.sample, bind, get, lift.
    rewrite Hps. reflexivity.
Qed.

Lemma sample_on_empty_buffer_witness :
  exists r',
    sample (1 / 2) 0 (construct (NewRarity 3 one one 2 2)) = Returns 0%nat r'
    /\ buffer r' = [].
Proof.
  exact (sample_on_empty_buffer (construct (NewRarity 3 one one 2 2)) (1 / 2) 0
           eq_refl eq_refl).
Defined.

Lemma empty_sample_returns_counterexample :
  ~ (forall (r : replay) (u : R) (draw : nat),
        reachable r -> buffer r = [] ->
        exists (e : exn) (r' : replay), sample u draw r = Raises e r').
Proof.
  intros H.
  destruct (H (construct (NewPrioritized 3 one one)) (1 / 2) 0%nat)
    as (e & r' & Hs).
  - exists (NewPrioritized 3 one one), []. reflexivity.
  - reflexivity.
  - discriminate Hs.
Qed.

End EmptyBuffer.

(** ** C9: [updatePriority] and the index *)

Section IndexRange.
Local Open Scope Z_scope.












End IndexRange.

(** ** C5: the fallback of the Threshold policy *)

Section ThresholdFallback.
Local Open Scope R_scope.

Lemma pow_one_kind (k : kind) :
  py_pow (py_add (py_abs (Num 0 k)) one) one = Ok (Num 1 (join (join k Py) Py)).
Proof.
  rewrite py_pow_pos by (simpl; rewrite Rabs_R0; lra).
  simpl. rewrite Rabs_R0, Rplus_0_l, Rpower_1 by lra. reflexivity.
Qed.

(** One transition stored with signal [0] (of kind [k]) under
    [alpha = 1], [E = 1], [threshold = 1]. *)
Lemma threshold_one_stored (k : kind) :
  run [Store 0 0 zero 0 (Num 0 k)] (construct (NewThreshold 1 one one 1 1 one))
  = Returns tt
      (Threshold
         (ThresholdPrioritizedER.Make
            (PrioritizedER.Make 1 [Experience 0 0 zero 0] 0 one one
               [Num 1 (join (join k Py) Py)]
               (py_add zero (Num 1 (join (join k Py) Py))))
            one (np_zeros 1 1) [])).
Proof.
  rewrite run_cons. simpl perform. unfold on, ThresholdPrioritizedER.store, super.
  simpl ThresholdPrioritizedER.base.
  rewrite (PrioritizedER_store_append _ _ _ _ _ _ (Num 1 (join (join k Py) Py)))
    by (first [exact (pow_one_kind k) | simpl; lia]).
  reflexivity.
Qed.

Ltac decide_reals :=
  repeat match goal with
  | |- context [Rltb ?a ?b] =>
      first [rewrite (Rltb_true a b) by lra | rewrite (Rltb_false a b) by lra]
  | |- context [Reqb ?a ?b] =>
      first [rewrite (Reqb_true a b) by lra | rewrite (Reqb_false a b) by lra]
  end.

Ltac eval_step :=
  unfold py_lt, py_eq, py_sum, py_int, py_div, np_divide, list_divide,
    np_cumsum, bind, get, lift, modify, ret; simpl; decide_reals; simpl.

Lemma whole_mass : 0 + 1 * 1 / (0 + 1 * 1) = 1.
Proof. field. Qed.

Lemma whole_mass_unmasked : 0 + 1 / (0 + 1) = 1.
Proof. field. Qed.

(** C5, at the failing input.  Threshold policy with [threshold = 1];
    one transition stored with a builtin Python number as signal, so the
    buffer is not empty and the total priority is [1].  The first
    [sample()] takes the masked branch and returns index 0, which uses
    up the quota of the pair.  The second [sample()] finds the masked
    sum zero, takes the fallback, and the fallback raises [TypeError]:
    [self.priorities] is a Python list and [sum(self.priorities)] a
    builtin float. *)
Theorem threshold_fallback_type_error :
  exists r1 r2 r3 : replay,
    run [Store 0 0 zero 0 (Num 0 Py)]
        (construct (NewThreshold 1 one one 1 1 one)) = Returns tt r1
    /\ buffer r1 = [Experience 0 0 zero 0]
    /\ priorities r1 = Some [Num 1 Py]
    /\ sample (1 / 2) 0 r1 = Returns 0%nat r2
    /\ buffer r2 = buffer r1 /\ priorities r2 = priorities r1
    /\ sample (1 / 2) 0 r2 = Raises TypeError r3.
Proof.
  eexists _, _, _.
  split; [exact (threshold_one_stored Py)|].
  split; [reflexivity|]. split; [reflexivity|].
  split; [|split; [|split]].
  - unfold sample, on, ThresholdPrioritizedER.sample, ThresholdPrioritizedER.mass.
    eval_step. eval_step. rewrite whole_mass. decide_reals. reflexivity.
  - reflexivity.
  - reflexivity.
  - unfold sample, on, ThresholdPrioritizedER.sample, ThresholdPrioritizedER.mass.
    eval_step. eval_step. reflexivity.
Qed.

(** The same calls with a NumPy scalar as signal: the fallback divides
    the list by a NumPy scalar, which NumPy accepts, and index 0 is
    returned from the unmasked distribution. *)
Lemma threshold_fallback_numpy_signal :
  exists r1 r2 r3 : replay,
    run [Store 0 0 zero 0 (Num 0 Np)]
        (construct (NewThreshold 1 one one 1 1 one)) = Returns tt r1
    /\ sample (1 / 2) 0 r1 = Returns 0%nat r2
    /\ sample (1 / 2) 0 r2 = Returns 0%nat r3.
Proof.
  eexists _, _, _.
  split; [exact (threshold_one_stored Np)|].
  split.
  - unfold sample, on, ThresholdPrioritizedER.sample, ThresholdPrioritizedER.mass.
    eval_step. eval_step. rewrite whole_mass. decide_reals. reflexivity.
  - unfold sample, on, ThresholdPrioritizedER.sample, ThresholdPrioritizedER.mass.
    do 3 eval_step. rewrite whole_mass_unmasked. decide_reals.
    reflexivity.
Qed.

(** The same line is reached with an empty buffer, where the masked sum
    is the empty sum. *)
Lemma threshold_empty_type_error (n : nat) (a e th : num) (ns na : nat)
    (u : R) (draw : nat) :
  sample u draw (construct (NewThreshold n a e ns na th))
  = Raises TypeError (construct (NewThreshold n a e ns na th)).
Proof.
  unfold sample, on, ThresholdPrioritizedER.sample, ThresholdPrioritizedER.mass.
  eval_step. reflexivity.
Qed.

End ThresholdFallback.

(** ** C6: the Rarity policy *)

Section Rarity.
Local Open Scope R_scope.

Lemma map_lookup {A B} (f : A -> B) (l : list A) (i : nat) :
  map f l !! i = f <$> (l !! i).
Proof.
  revert i; induction l as [|x l IH]; intros [|i]; simpl; try reflexivity.
  apply IH.
Qed.

Lemma val_fold_py_add (l : list num) (acc : num) :
  val (fold_left py_add l acc) = val acc + total l.
Proof.
  revert acc; induction l as [|x l IH]; intros acc; simpl; [lra|].
  rewrite IH. simpl. lra.
Qed.

Lemma val_py_sum (l : list num) : val (py_sum l) = total l.
Proof. unfold py_sum. rewrite val_fold_py_add. simpl. lra. Qed.







Lemma bind_Returns {S A B} (m : M S A) (k : A -> M S B) (s s' : S) (a : A) :
  m s = Returns a s' -> bind m k s = k a s'.
Proof. intros H. unfold bind. now rewrite H. Qed.

Lemma np_multiply_same_length (a b : list num) :
  length a = length b ->
  np_multiply a b = Ok (zip_with (fun x y => Num (val x * val y) Np) a b).
Proof. intros H. unfold np_multiply. rewrite H, Nat.eqb_refl. reflexivity. Qed.

Lemma np_divide_nonzero (arr : list num) (s : num) :
  (arr <> [] -> val s <> 0) ->
  np_divide arr s = Ok (map (fun x => Num (val x / val s) Np) arr).
Proof.
  intros H. unfold np_divide. apply res_mapM_Ok.
  intros x Hx. rewrite py_div_nonzero; [reflexivity|].
  apply H. intros ->. inversion Hx.
Qed.





End Rarity.

(** * Further properties *)

(** Walks a method body with the rules for [keeps]. *)
Ltac keeps_walk :=
  repeat match goal with
  | |- keeps _ (ret _) => apply keeps_ret
  | |- keeps _ get => apply keeps_get
  | |- keeps _ (lift _) => apply keeps_lift
  | |- keeps _ (modify _) => apply keeps_modify; intros []; reflexivity
  | |- keeps _ (for_each _ _) => apply keeps_for_each; intros
  | |- keeps _ (bind _ _) => apply keeps_bind; [|intros]
  | |- keeps _ (if ?b then _ else _) => destruct b
  end.

(** ** Properties that every call preserves *)

Section Preserves.
Context {S : Type} (P : S -> Prop).

Lemma preserves_ret {A} (a : A) : preserves P (ret a).
Proof. intros s H; exact H. Qed.

Lemma preserves_get : preserves P get.
Proof. intros s H; exact H. Qed.

Lemma preserves_lift {A} (r : res A) : preserves P (lift r).
Proof. intros s H; unfold lift; destruct r; auto. Qed.

Lemma preserves_bind {A B} (m : M S A) (k : A -> M S B) :
  preserves P m -> (forall a, preserves P (k a)) -> preserves P (bind m k).
Proof.
  intros Hm Hk s H. unfold bind. specialize (Hm s H).
  destruct (m s) as [a s'|e s'|]; [|assumption|exact I].
  exact (Hk a s' Hm).
Qed.

Lemma preserves_modify (f : S -> S) :
  (forall s, P s -> P (f s)) -> preserves P (modify f).
Proof. intros H s Hs; simpl; auto. Qed.

Lemma preserves_for_each {A} (l : list A) (body : A -> M S unit) :
  (forall x, preserves P (body x)) -> preserves P (for_each l body).
Proof.
  intros H. induction l as [|x l IH]; simpl.
  - apply preserves_ret.
  - apply preserves_bind; [apply H | intros _; exact IH].
Qed.

End Preserves.

Lemma preserves_super {S B A} (Pb : B -> Prop) (proj : S -> B)
    (upd : B -> S -> S) (m : M B A) :
  (forall b s, proj (upd b s) = b) ->
  preserves Pb m -> preserves (fun s => Pb (proj s)) (super proj upd m).
Proof.
  intros Hp Hm s H. unfold super. specialize (Hm (proj s) H).
  destruct (m (proj s)); [| |exact I]; rewrite Hp; assumption.
Qed.

Lemma preserves_on {S A} (P : S -> Prop) (Q : replay -> Prop)
    (wrap : S -> replay) (m : M S A) :
  (forall s, Q (wrap s) = P s) -> preserves P m ->
  forall s, Q (wrap s) ->
    match on wrap m s with
    | Returns _ r => Q r
    | Raises _ r => Q r
    | NotReal => True
    end.
Proof.
  intros HQ Hm s H. unfold on. rewrite HQ in H. specialize (Hm s H).
  destruct (m s); [| |exact I]; rewrite HQ; assumption.
Qed.

(** A property preserved by the methods of the three classes that own
    the attributes is preserved by every method of every policy. *)
Section LiftingPreserved.
Variable Pu : ExperienceReplay.t -> Prop.
Variable Pp : PrioritizedER.t -> Prop.
Variable Ps : SoftmaxPrioritizedER.t -> Prop.
Hypothesis uniform_store :
  forall st ac rw ns, preserves Pu (ExperienceReplay.store st ac rw ns).
Hypothesis per_store :
  forall st ac rw ns td, preserves Pp (PrioritizedER.store st ac rw ns td).
Hypothesis per_update :
  forall idx td, preserves Pp (PrioritizedER.updatePriority idx td).
Hypothesis soft_store :
  forall st ac rw ns td, preserves Ps (SoftmaxPrioritizedER.store st ac rw ns td).
Hypothesis soft_update :
  forall idx td, preserves Ps (SoftmaxPrioritizedER.updatePriority idx td).

Ltac preserves_step :=
  match goal with
  | |- preserves _ (PrioritizedER.store _ _ _ _ _) => apply per_store
  | |- preserves _ (PrioritizedER.updatePriority _ _) => apply per_update
  | |- preserves _ (super _ _ _) =>
      apply (preserves_super Pp); [reflexivity |]
  | |- preserves _ (ret _) => apply preserves_ret
  | |- preserves _ get => apply preserves_get
  | |- preserves _ (lift _) => apply preserves_lift
  | |- preserves _ (modify _) =>
      apply preserves_modify; intros [] ?; assumption
  | |- preserves _ (for_each _ _) => apply preserves_for_each; intros
  | |- preserves _ (bind _ _) => apply preserves_bind; [|intros]
  end.

Lemma store_preserves st ac rw ns td :
  preserves (quantity Pu Pp Ps) (store st ac rw ns td).
Proof.
  intros [s|s|s|s|s|s]; unfold store.
  - apply (preserves_on Pu); [reflexivity|]. apply uniform_store.
  - apply (preserves_on Pp); [reflexivity|]. apply per_store.
  - apply (preserves_on (fun x => Pp (AsymmetricPrioritizedER.base x)));
      [reflexivity|].
    unfold AsymmetricPrioritizedER.store. repeat preserves_step.
  - apply (preserves_on (fun x => Pp (RarePrioritizedER.base x)));
      [reflexivity|].
    unfold RarePrioritizedER.store. repeat preserves_step.
  - apply (preserves_on (fun x => Pp (ThresholdPrioritizedER.base x)));
      [reflexivity|].
    unfold ThresholdPrioritizedER.store. repeat preserves_step.
  - apply (preserves_on Ps); [reflexivity|]. apply soft_store.
Qed.

Lemma updatePriority_preserves idx td :
  preserves (quantity Pu Pp Ps) (updatePriority idx td).
Proof.
  intros [s|s|s|s|s|s]; unfold updatePriority.
  - apply (preserves_on Pu); [reflexivity|]. apply preserves_ret.
  - apply (preserves_on Pp); [reflexivity|]. apply per_update.
  - apply (preserves_on (fun x => Pp (AsymmetricPrioritizedER.base x)));
      [reflexivity|].
    unfold AsymmetricPrioritizedER.updatePriority. repeat preserves_step.
  - apply (preserves_on (fun x => Pp (RarePrioritizedER.base x)));
      [reflexivity|].
    unfold RarePrioritizedER.updatePriority. repeat preserves_step.
  - apply (preserves_on (fun x => Pp (ThresholdPrioritizedER.base x)));
      [reflexivity|].
    unfold ThresholdPrioritizedER.updatePriority. repeat preserves_step.
  - apply (preserves_on Ps); [reflexivity|]. apply soft_update.
Qed.

Lemma sample_preserves u draw :
  preserves (quantity Pu Pp Ps) (sample u draw).
Proof.
  intros [s|s|s|s|s|s]; unfold sample.
  - apply (preserves_on Pu); [reflexivity|].
    unfold ExperienceReplay.sample. repeat preserves_step.
  - apply (preserves_on Pp); [reflexivity|].
    unfold PrioritizedER.sample. repeat preserves_step.
  - apply (preserves_on (fun x => Pp (AsymmetricPrioritizedER.base x)));
      [reflexivity|].
    unfold AsymmetricPrioritizedER.sample, PrioritizedER.sample.
    repeat preserves_step.
  - apply (preserves_on (fun x => Pp (RarePrioritizedER.base x)));
      [reflexivity|].
    unfold RarePrioritizedER.sample, RarePrioritizedER.mass.
    repeat preserves_step.
  - apply (preserves_on (fun x => Pp (ThresholdPrioritizedER.base x)));
      [reflexivity|].
    unfold ThresholdPrioritizedER.sample, ThresholdPrioritizedER.mass.
    repeat preserves_step. destruct (py_eq _ _); preserves_step.
  - apply (preserves_on Ps); [reflexivity|].
    unfold SoftmaxPrioritizedER.sample. repeat preserves_step.
Qed.

Lemma perform_preserves (c : call) : preserves (quantity Pu Pp Ps) (perform c).
Proof.
  destruct c; simpl.
  - apply store_preserves.
  - apply updatePriority_preserves.
  - apply preserves_bind; [apply sample_preserves | intros; apply preserves_ret].
Qed.

Lemma reachable_preserved (c : ctor) (cs : list call) (r : replay) :
  quantity Pu Pp Ps (construct c) ->
  state_after (run cs (construct c)) = Some r -> quantity Pu Pp Ps r.
Proof.
  intros H0 Hrun.
  pose proof (preserves_for_each _ cs perform perform_preserves _ H0) as K.
  fold (run cs) in K.
  destruct (run cs (construct c)); simpl in Hrun; try discriminate;
    injection Hrun as <-; exact K.
Qed.

End LiftingPreserved.

(** ** Invariants of every reachable instance *)

Section Invariants.
Local Open Scope R_scope.

Lemma elem_of_insert_inv {A} (l : list A) (i : nat) (x p : A) :
  p ∈ <[i := x]> l -> p = x \/ p ∈ l.
Proof.
  revert i; induction l as [|y l IH]; intros [|i] H; simpl in H.
  - inversion H.
  - inversion H.
  - apply elem_of_cons in H as [->|H]; [now left | right; now right].
  - apply elem_of_cons in H as [->|H]; [right; now left|].
    destruct (IH _ H) as [->|H']; [now left | right; now right].
Qed.

Lemma elem_of_snoc_inv {A} (l : list A) (x p : A) :
  p ∈ l ++ [x] -> p = x \/ p ∈ l.
Proof.
  intros H. apply elem_of_app in H as [H|H]; [now right|].
  apply list_elem_of_singleton in H. now left.
Qed.

(** If the priority that a call computes satisfies [Q], and every stored
    priority did, every stored priority still does; the hyperparameters
    are never assigned. *)
Lemma PrioritizedER_store_every (Q : num -> Prop) st ac rw ns td
    (s : PrioritizedER.t) :
  (forall prob,
     py_pow (py_add (py_abs td) (PrioritizedER.E s)) (PrioritizedER.alpha s)
     = Ok prob -> Q prob) ->
  (forall p, p ∈ PrioritizedER.priorities s -> Q p) ->
  match PrioritizedER.store st ac rw ns td s with
  | Returns _ s' | Raises _ s' =>
      PrioritizedER.E s' = PrioritizedER.E s
      /\ PrioritizedER.alpha s' = PrioritizedER.alpha s
      /\ forall p, p ∈ PrioritizedER.priorities s' -> Q p
  | NotReal => True
  end.
Proof.
  intros Hprob Hall. unfold PrioritizedER.store, bind, get, lift, modify.
  destruct (py_pow _ _) as [prob| |]; [|auto|exact I].
  specialize (Hprob prob eq_refl).
  assert (Hins : forall p, p ∈ <[PrioritizedER.next_index s := prob]>
                                 (PrioritizedER.priorities s) -> Q p).
  { intros p Hp. destruct (elem_of_insert_inv _ _ _ _ Hp) as [->|]; auto. }
  assert (Happ : forall p, p ∈ PrioritizedER.priorities s ++ [prob] -> Q p).
  { intros p Hp. destruct (elem_of_snoc_inv _ _ _ Hp) as [->|]; auto. }
  destruct (_ <? _)%nat.
  - destruct (getitem _ _) as [old| |]; [| |exact I].
    + destruct (py_mod _ _); simpl; auto.
    + simpl; auto.
  - destruct (py_mod _ _); simpl; auto.
Qed.

Lemma PrioritizedER_updatePriority_every (Q : num -> Prop) idx td
    (s : PrioritizedER.t) :
  (forall prob,
     py_pow (py_add (py_abs td) (PrioritizedER.E s)) (PrioritizedER.alpha s)
     = Ok prob -> Q prob) ->
  (forall p, p ∈ PrioritizedER.priorities s -> Q p) ->
  match PrioritizedER.updatePriority idx td s with
  | Returns _ s' | Raises _ s' =>
      PrioritizedER.E s' = PrioritizedER.E s
      /\ PrioritizedER.alpha s' = PrioritizedER.alpha s
      /\ forall p, p ∈ PrioritizedER.priorities s' -> Q p
  | NotReal => True
  end.
Proof.
  intros Hprob Hall.
  unfold PrioritizedER.updatePriority, bind, get, lift, modify.
  destruct (py_pow _ _) as [prob| |]; [|auto|exact I].
  specialize (Hprob prob eq_refl).
  destruct (getitem _ _) as [old| |] eqn:Hold; [|auto|exact I].
  destruct (setitem_after_getitem _ _ _ prob Hold) as (k & Hk & Hset).
  simpl. rewrite Hset. simpl. split; [reflexivity|]. split; [reflexivity|].
  intros p Hp. destruct (elem_of_insert_inv _ _ _ _ Hp) as [->|]; auto.
Qed.




Lemma preserves_trivial {S A} (m : M S A) : preserves (fun _ => True) m.
Proof. intros s _. destruct (m s); exact I. Qed.


Lemma Int_part_zero : Int_part 0 = 0%Z.
Proof. symmetry. apply Int_part_spec. lra. Qed.

(** [x ** 0] is [1] for every base, zero and negative included. *)
Lemma py_pow_exponent_zero (x a : num) :
  val a = 0 -> exists k, py_pow x a = Ok (Num 1 k).
Proof.
  intros Ha. unfold py_pow. rewrite Ha.
  destruct (Rlt_dec 0 (val x)) as [Hpos|Hnpos].
  - rewrite (Rltb_true _ _ Hpos), Rpower_O by exact Hpos. eexists; reflexivity.
  - rewrite (Rltb_false _ _ Hnpos).
    destruct (Req_dec_T (val x) 0) as [Hz|Hnz].
    + rewrite (Reqb_true _ _ Hz), Rltb_false by lra.
      rewrite Reqb_true by reflexivity. eexists; reflexivity.
    + rewrite (Reqb_false _ _ Hnz), Int_part_zero.
      rewrite Reqb_true by reflexivity. simpl. eexists; reflexivity.
Qed.

Lemma reachable_flat (c : ctor) (cs : list call) (r : replay) :
  priorities_flat (construct c) ->
  state_after (run cs (construct c)) = Some r -> priorities_flat r.
Proof.
  apply reachable_preserved.
  - intros; apply preserves_trivial.
  - intros st ac rw ns td s [Ha Hall].
    pose proof (PrioritizedER_store_every (fun p => val p = 1) st ac rw ns td s)
      as H.
    destruct (PrioritizedER.store st ac rw ns td s); [| |exact I];
      (destruct H as (_ & Hal & Hps);
       [intros prob Hp;
        destruct (py_pow_exponent_zero
                    (py_add (py_abs td) (PrioritizedER.E s)) _ Ha) as [k Hk];
        rewrite Hk in Hp; injection Hp as <-; reflexivity
       | exact Hall
       | split; [rewrite Hal; exact Ha | exact Hps]]).
  - intros idx td s [Ha Hall].
    pose proof (PrioritizedER_updatePriority_every (fun p => val p = 1) idx td s)
      as H.
    destruct (PrioritizedER.updatePriority idx td s); [| |exact I];
      (destruct H as (_ & Hal & Hps);
       [intros prob Hp;
        destruct (py_pow_exponent_zero
                    (py_add (py_abs td) (PrioritizedER.E s)) _ Ha) as [k Hk];
        rewrite Hk in Hp; injection Hp as <-; reflexivity
       | exact Hall
       | split; [rewrite Hal; exact Ha | exact Hps]]).
  - intros; apply preserves_trivial.
  - intros; apply preserves_trivial.
Qed.

(** The ring keeps its shape. *)
Lemma ring_shape_overwrite (bs : nat) (buf : list experience) (ni : nat)
    (x : experience) :
  ring_shape bs buf ni -> (ni < length buf)%nat ->
  ring_shape bs (<[ni := x]> buf) ni
  /\ ring_shape bs (<[ni := x]> buf) ((ni + 1) mod bs).
Proof.
  intros [Hbs H] Hlt. unfold ring_shape. rewrite length_insert.
  pose proof (Nat.mod_upper_bound (ni + 1) bs Hbs).
  split; (split; [exact Hbs|]); right; lia.
Qed.

Lemma ring_shape_append (bs : nat) (buf : list experience) (ni : nat)
    (x : experience) :
  ring_shape bs buf ni -> (length buf <= ni)%nat ->
  ring_shape bs (buf ++ [x]) ((ni + 1) mod bs).
Proof.
  intros [Hbs H] Hge. unfold ring_shape. rewrite length_app. simpl length.
  split; [exact Hbs|].
  destruct H as [[Hlt ->]|[Heq Hni]]; [|lia].
  destruct (Nat.eq_dec (length buf + 1)%nat bs) as [Hfull|Hnot].
  - right. rewrite Hfull, Nat.Div0.mod_same. lia.
  - left. rewrite Nat.mod_small by lia. lia.
Qed.

Lemma ExperienceReplay_store_shape st ac rw ns :
  preserves (fun s => ring_shape (ExperienceReplay.buffer_size s)
                        (ExperienceReplay.buffer s)
                        (ExperienceReplay.next_index s))
    (ExperienceReplay.store st ac rw ns).
Proof.
  intros s H. unfold ExperienceReplay.store, bind, get, lift, modify, py_mod.
  destruct (Nat.ltb_spec (ExperienceReplay.next_index s)
              (length (ExperienceReplay.buffer s))) as [Hlt|Hge]; simpl;
    (destruct (Nat.eqb_spec (ExperienceReplay.buffer_size s) 0) as [Hz|_];
     [destruct H as [Hbs _]; contradiction|]); simpl.
  - apply (ring_shape_overwrite _ _ _ _ H Hlt).
  - apply (ring_shape_append _ _ _ _ H Hge).
Qed.

Lemma PrioritizedER_store_shape st ac rw ns td :
  preserves (fun s => ring_shape (PrioritizedER.buffer_size s)
                        (PrioritizedER.buffer s) (PrioritizedER.next_index s))
    (PrioritizedER.store st ac rw ns td).
Proof.
  intros s H. unfold PrioritizedER.store, bind, get, lift, modify, py_mod.
  destruct (py_pow _ _) as [prob| |]; [|exact H|exact I].
  destruct (Nat.ltb_spec (PrioritizedER.next_index s)
              (length (PrioritizedER.buffer s))) as [Hlt|Hge]; simpl.
  - destruct (getitem _ _) as [old| |]; simpl; [| |exact I].
    + destruct (Nat.eqb_spec (PrioritizedER.buffer_size s) 0) as [Hz|_];
        [destruct H as [Hbs _]; contradiction|]. simpl.
      apply (ring_shape_overwrite _ _ _ _ H Hlt).
    + apply (ring_shape_overwrite _ _ _ _ H Hlt).
  - destruct (Nat.eqb_spec (PrioritizedER.buffer_size s) 0) as [Hz|_];
      [destruct H as [Hbs _]; contradiction|]. simpl.
    apply (ring_shape_append _ _ _ _ H Hge).
Qed.

Lemma PrioritizedER_updatePriority_shape idx td :
  preserves (fun s => ring_shape (PrioritizedER.buffer_size s)
                        (PrioritizedER.buffer s) (PrioritizedER.next_index s))
    (PrioritizedER.updatePriority idx td).
Proof.
  intros s H. unfold PrioritizedER.updatePriority, bind, get, lift, modify.
  destruct (py_pow _ _) as [prob| |]; [|exact H|exact I].
  destruct (getitem _ _) as [old| |]; simpl; [|exact H|exact I].
  destruct (setitem _ _ _); simpl; [exact H|exact H|exact I].
Qed.

Lemma SoftmaxPrioritizedER_store_shape st ac rw ns td :
  preserves (fun s => ring_shape (SoftmaxPrioritizedER.buffer_size s)
                        (SoftmaxPrioritizedER.buffer s)
                        (SoftmaxPrioritizedER.next_index s))
    (SoftmaxPrioritizedER.store st ac rw ns td).
Proof.
  intros s H. unfold SoftmaxPrioritizedER.store, bind, get, lift, modify, py_mod.
  destruct (Nat.ltb_spec (SoftmaxPrioritizedER.next_index s)
              (length (SoftmaxPrioritizedER.buffer s))) as [Hlt|Hge]; simpl.
  - destruct (getitem _ _) as [old| |]; simpl; [| |exact I].
    + destruct (Nat.eqb_spec (SoftmaxPrioritizedER.buffer_size s) 0) as [Hz|_];
        [destruct H as [Hbs _]; contradiction|]. simpl.
      apply (ring_shape_overwrite _ _ _ _ H Hlt).
    + apply (ring_shape_overwrite _ _ _ _ H Hlt).
  - destruct (Nat.eqb_spec (SoftmaxPrioritizedER.buffer_size s) 0) as [Hz|_];
      [destruct H as [Hbs _]; contradiction|]. simpl.
    apply (ring_shape_append _ _ _ _ H Hge).
Qed.

Lemma SoftmaxPrioritizedER_updatePriority_shape idx td :
  preserves (fun s => ring_shape (SoftmaxPrioritizedER.buffer_size s)
                        (SoftmaxPrioritizedER.buffer s)
                        (SoftmaxPrioritizedER.next_index s))
    (SoftmaxPrioritizedER.updatePriority idx td).
Proof.
  intros s H. unfold SoftmaxPrioritizedER.updatePriority, bind, get, lift, modify.
  destruct (getitem _ _) as [old| |]; simpl; [|exact H|exact I].
  destruct (setitem _ _ _); simpl; [exact H|exact H|exact I].
Qed.

Lemma reachable_within_capacity (c : ctor) (cs : list call) (r : replay) :
  (1 <= buffer_size (construct c))%nat ->
  state_after (run cs (construct c)) = Some r -> within_capacity r.
Proof.
  intros Hbs. apply reachable_preserved.
  - apply ExperienceReplay_store_shape.
  - apply PrioritizedER_store_shape.
  - apply PrioritizedER_updatePriority_shape.
  - apply SoftmaxPrioritizedER_store_shape.
  - apply SoftmaxPrioritizedER_updatePriority_shape.
  - destruct c; simpl in *; (split; [lia | left; simpl; lia]).
Qed.

End Invariants.

(** ** Capacity, positive masses, valid indices *)

Section Reachable.
Local Open Scope R_scope.

Lemma keeps_constant {S A T} (x : T) (m : M S A) : keeps (fun _ => x) m.
Proof. intros s. destruct (m s); reflexivity. Qed.

Lemma reachable_keeps {T} (d : replay -> T) (c : ctor) (cs : list call)
    (r : replay) :
  (forall c', keeps d (perform c')) ->
  state_after (run cs (construct c)) = Some r -> d r = d (construct c).
Proof.
  intros K H. pose proof (keeps_for_each d cs perform K (construct c)) as Kr.
  fold (run cs) in Kr.
  destruct (run cs (construct c)); simpl in H; try discriminate;
    injection H as <-; exact Kr.
Qed.


Lemma PrioritizedER_store_alpha st ac rw ns td :
  keeps (fun s => Some (PrioritizedER.alpha s)) (PrioritizedER.store st ac rw ns td).
Proof.
  intros s. unfold PrioritizedER.store, bind, get, lift, modify.
  destruct (py_pow _ _); [|reflexivity|exact I].
  destruct (_ <? _)%nat.
  - destruct (getitem _ _); [|reflexivity|exact I].
    destruct (py_mod _ _); reflexivity.
  - destruct (py_mod _ _); reflexivity.
Qed.

Lemma PrioritizedER_updatePriority_alpha idx td :
  keeps (fun s => Some (PrioritizedER.alpha s)) (PrioritizedER.updatePriority idx td).
Proof.
  intros s. unfold PrioritizedER.updatePriority, bind, get, lift, modify.
  destruct (py_pow _ _); [|reflexivity|exact I].
  destruct (getitem _ _); [|reflexivity|exact I]. simpl.
  destruct (setitem _ _ _); reflexivity.
Qed.

Lemma perform_alpha (c : call) : keeps alpha_of (perform c).
Proof.
  apply perform_keeps.
  - intros; apply keeps_constant.
  - apply PrioritizedER_store_alpha.
  - apply PrioritizedER_updatePriority_alpha.
  - intros; apply keeps_constant.
  - intros; apply keeps_constant.
Qed.

Lemma reachable_drift (c : ctor) (cs : list call) (r : replay) :
  state_after (run cs (construct c)) = Some r -> drift r = 0.
Proof.
  intros H. rewrite (reachable_keeps drift c cs r perform_drift H).
  apply construct_drift.
Qed.

(** X1.  In every state that a caller can reach from a fresh instance of
    capacity [buffer_size >= 1], by any calls, returning or raising: the
    capacity is the one given to the constructor, the buffer holds at
    most [buffer_size] transitions, the cursor is below [buffer_size],
    the cursor is at the end of the buffer while the buffer is not full,
    and the priority table is as long as the buffer. *)
Theorem capacity_invariant (c : ctor) (cs : list call) (r : replay) :
  (1 <= buffer_size (construct c))%nat ->
  state_after (run cs (construct c)) = Some r ->
  buffer_size r = buffer_size (construct c)
  /\ (length (buffer r) <= buffer_size r)%nat
  /\ (next_index r < buffer_size r)%nat
  /\ ((length (buffer r) < buffer_size r)%nat -> next_index r = length (buffer r))
  /\ (forall ps, priorities r = Some ps -> length ps = length (buffer r)).
Proof.
  intros Hbs Hrun.
  pose proof (reachable_within_capacity c cs r Hbs Hrun) as Hcap.
  pose proof (reachable_skew c cs r Hrun) as Hskew.
  split; [exact (reachable_keeps buffer_size c cs r perform_buffer_size Hrun)|].
  destruct r as [s|s|s|s|s|s]; unfold within_capacity, skew, quantity in *;
    destruct Hcap as [_ Hcap]; cbn [buffer buffer_size next_index priorities];
    unfold per_skew, soft_skew in Hskew;
    (split; [lia|]); (split; [lia|]); (split; [lia|]);
    intros ps Hps; try discriminate; injection Hps as <-; lia.
Qed.

Lemma capacity_invariant_witness :
  let r := Softmax (SoftmaxPrioritizedER.Make 3
                      [Experience 0 0 zero 1; Experience 1 0 zero 0] 2
                      [np_exp (py_abs one); np_exp (py_abs zero)]
                      (py_add (py_add zero (np_exp (py_abs one)))
                              (np_exp (py_abs zero)))) in
  state_after (run [Store 0 0 zero 1 one; Store 1 0 zero 0 zero;
                    UpdatePriority 5 one]
                   (construct (NewSoftmax 3))) = Some r
  /\ (length (buffer r) <= buffer_size r)%nat
  /\ next_index r = length (buffer r).
Proof.
  intros r.
  assert (Hbs : (1 <= buffer_size (construct (NewSoftmax 3)))%nat) by (simpl; lia).
  assert (Hrun : state_after
                   (run [Store 0 0 zero 1 one; Store 1 0 zero 0 zero;
                         UpdatePriority 5 one]
                        (construct (NewSoftmax 3))) = Some r) by reflexivity.
  destruct (capacity_invariant (NewSoftmax 3) _ r Hbs Hrun)
    as (_ & Hle & _ & Hend & _).
  split; [exact Hrun|]. split; [exact Hle|]. apply Hend. simpl. lia.
Defined.


Lemma count_lt_le_length (cmf : list R) (u : R) :
  (count_lt cmf u <= length cmf)%nat.
Proof.
  induction cmf as [|c cmf IH]; simpl; [lia|].
  destruct (Rltb c u); lia.
Qed.

Lemma length_cumsum_from (acc : R) (l : list num) :
  length (cumsum_from acc l) = length l.
Proof. revert acc; induction l as [|x l IH]; intros acc; simpl; auto. Qed.

(** When the total mass reaches [u], the count of prefix sums below [u]
    is an index of the list. *)
Lemma count_lt_cumsum_bound (l : list num) (acc u : R) :
  l <> [] -> (forall x, x ∈ l -> 0 <= val x) -> u <= acc + total l ->
  (count_lt (cumsum_from acc l) u < length l)%nat.
Proof.
  revert acc. induction l as [|x l IH]; intros acc Hne Hpos Hu;
    [contradiction|].
  assert (Hl : forall y, y ∈ l -> 0 <= val y)
    by (intros y Hy; apply Hpos; now right).
  simpl. destruct (Rlt_dec (acc + val x) u) as [Hlt|Hge].
  - rewrite (Rltb_true _ _ Hlt).
    destruct l as [|y l'].
    + simpl in Hu. lra.
    + assert ((count_lt (cumsum_from (acc + val x) (y :: l')) u
               < length (y :: l'))%nat).
      { apply IH; [discriminate | exact Hl | simpl in *; lra]. }
      lia.
  - rewrite (Rltb_false _ _ Hge).
    rewrite count_lt_above by (first [lra | exact Hl]). lia.
Qed.









Lemma total_all_ones (ps : list num) :
  (forall p, p ∈ ps -> val p = 1) -> total ps = INR (length ps).
Proof.
  induction ps as [|p ps IH]; intros H; [reflexivity|].
  simpl length. rewrite S_INR. simpl total.
  rewrite (H p) by left. rewrite IH by (intros q Hq; apply H; now right). lra.
Qed.

(** X5.  With [alpha = 0] the priority-weighted policies reduce to
    uniform sampling: in every reachable state every stored priority is
    exactly 1, whatever the signals and the floor [E] were,
    [priority_sum] is the number of stored priorities, and every mass
    [priority / priority_sum] is [1 / len(priorities)]. *)
Theorem alpha_zero_is_uniform (c : ctor) (cs : list call) (r : replay)
    (a : num) (ps : list num) (sum : num) :
  alpha_of (construct c) = Some a -> val a = 0 ->
  state_after (run cs (construct c)) = Some r ->
  priorities r = Some ps -> priority_sum r = Some sum ->
  (forall p, p ∈ ps -> val p = 1)
  /\ val sum = INR (length ps)
  /\ (forall m, m ∈ mass_function ps sum -> val m = 1 / INR (length ps)).
Proof.
  intros Ha Hz Hrun Hps Hsum.
  assert (Hflat0 : priorities_flat (construct c)).
  { destruct c; simpl in Ha; try discriminate; injection Ha as <-;
      (split; [exact Hz | intros p Hp; inversion Hp]). }
  pose proof (reachable_flat c cs r Hflat0 Hrun) as Hflat.
  pose proof (reachable_keeps alpha_of c cs r perform_alpha Hrun) as Hal.
  rewrite Ha in Hal.
  pose proof (reachable_drift c cs r Hrun) as Hd.
  unfold drift in Hd. rewrite Hps, Hsum in Hd.
  assert (Hones : forall p, p ∈ ps -> val p = 1).
  { destruct r as [s|s|s|s|s|s]; simpl in Hps, Hal; try discriminate;
      injection Hps as <-; destruct Hflat as [_ H]; exact H. }
  assert (Hval : val sum = INR (length ps))
    by (rewrite <- (total_all_ones ps Hones); lra).
  split; [exact Hones|]. split; [exact Hval|].
  intros m Hm. unfold mass_function in Hm.
  apply list_elem_of_In, in_map_iff in Hm as (p & <- & Hp).
  apply list_elem_of_In in Hp. simpl. now rewrite (Hones p Hp), Hval.
Qed.

Lemma alpha_zero_is_uniform_witness :
  let p := Num (Rpower (Rabs 0 + 1) 0) Py in
  state_after (run [Store 0 0 zero 1 zero]
                   (construct (NewPrioritized 2 zero one)))
  = Some (Prioritized (PrioritizedER.Make 2 [Experience 0 0 zero 1] 1 zero one
                         [p] (py_add zero p)))
  /\ val p = 1.
Proof.
  intros p.
  assert (Ha : alpha_of (construct (NewPrioritized 2 zero one)) = Some zero)
    by reflexivity.
  assert (Hz : val zero = 0) by reflexivity.
  assert (Hrun : state_after (run [Store 0 0 zero 1 zero]
                                  (construct (NewPrioritized 2 zero one)))
                 = Some (Prioritized
                           (PrioritizedER.Make 2 [Experience 0 0 zero 1] 1
                              zero one [p] (py_add zero p)))).
  { rewrite run_cons. simpl perform. unfold on.
    rewrite (PrioritizedER_store_append _ _ _ _ _ _ p);
      [reflexivity | | simpl; lia | simpl; lia].
    apply py_pow_pos. simpl. rewrite Rabs_R0. lra. }
  split; [exact Hrun|].
  destruct (alpha_zero_is_uniform _ _ _ zero [p] (py_add zero p) Ha Hz Hrun
              eq_refl eq_refl) as (H & _).
  apply H. left.
Defined.

(** X6.  [sample()] never writes to the containers: for every policy,
    whether it returns or raises, the buffer, the cursor, the capacity,
    the priority table and [priority_sum] are what they were.  (What it
    does write is its own scratch list in the Rarity and Threshold
    policies and the sample counts of the Threshold policy.) *)
Theorem sample_is_read_only (r r' : replay) (u : R) (draw : nat) :
  state_after (sample u draw r) = Some r' ->
  core r' = core r
  /\ buffer r' = buffer r /\ next_index r' = next_index r
  /\ buffer_size r' = buffer_size r
  /\ priorities r' = priorities r /\ priority_sum r' = priority_sum r.
Proof.
  intros H.
  pose proof (sample_keeps Uniform Prioritized Softmax u draw r) as K.
  fold core in K.
  assert (Hcore : core r' = core r).
  { destruct (sample u draw r); simpl in H; try discriminate;
      injection H as <-; exact K. }
  split; [exact Hcore|].
  assert (Hb : forall x, buffer x = buffer (core x)) by (intros []; reflexivity).
  assert (Hn : forall x, next_index x = next_index (core x))
    by (intros []; reflexivity).
  assert (Hs : forall x, buffer_size x = buffer_size (core x))
    by (intros []; reflexivity).
  assert (Hp : forall x, priorities x = priorities (core x))
    by (intros []; reflexivity).
  assert (Hq : forall x, priority_sum x = priority_sum (core x))
    by (intros []; reflexivity).
  rewrite (Hb r'), (Hb r), (Hn r'), (Hn r), (Hs r'), (Hs r), (Hp r'), (Hp r),
    (Hq r'), (Hq r), Hcore.
  repeat split; reflexivity.
Qed.

Lemma sample_is_read_only_witness :
  let r := Rarity (RarePrioritizedER.Make (PrioritizedER.init 2 one one)
                     (np_zeros 1 1) [one]) in
  let r' := construct (NewRarity 2 one one 1 1) in
  state_after (sample (1 / 2) 0 r) = Some r' /\ r' <> r /\ core r' = core r.
Proof.
  intros r r'.
  assert (H : state_after (sample (1 / 2) 0 r) = Some r') by reflexivity.
  split; [exact H|]. split; [discriminate|].
  exact (proj1 (sample_is_read_only r r' (1 / 2) 0 H)).
Defined.

End Reachable.

(** ** The Threshold policy *)

Section Threshold.
Local Open Scope R_scope.

Lemma threshold_loop_body (b : PrioritizedER.t) (th : num) (U : ndarray)
    (ic : list num) (x : experience) :
  in_shape (Some (nrows U, ncols U)) x ->
  (self <- get ;;
   c <- lift (getcell (ThresholdPrioritizedER.U_mat self) (state x) (action x)) ;;
   modify (ThresholdPrioritizedER.set_is_counted
             (fun l => l ++ [py_int (py_lt c (ThresholdPrioritizedER.threshold self))])))
    (ThresholdPrioritizedER.Make b th U ic)
  = Returns tt (ThresholdPrioritizedER.Make b th U (ic ++ [quota_mask U th x])).
Proof.
  intros [Hr Hc]. unfold quota_mask, occurrences.
  unfold bind, get, lift, modify, getcell. simpl. unfold cell_index.
  destruct (py_index (nrows U) (state x)) as [a|]; [|contradiction].
  destruct (py_index (ncols U) (action x)) as [c|]; [|contradiction].
  reflexivity.
Qed.

Lemma threshold_loop (l : list experience) :
  forall (b : PrioritizedER.t) (th : num) (U : ndarray) (ic : list num),
    (forall x, x ∈ l -> in_shape (Some (nrows U, ncols U)) x) ->
    for_each l (fun x =>
      self <- get ;;
      c <- lift (getcell (ThresholdPrioritizedER.U_mat self) (state x) (action x)) ;;
      modify (ThresholdPrioritizedER.set_is_counted
                (fun l => l ++ [py_int (py_lt c (ThresholdPrioritizedER.threshold self))])))
      (ThresholdPrioritizedER.Make b th U ic)
    = Returns tt
        (ThresholdPrioritizedER.Make b th U (ic ++ map (quota_mask U th) l)).
Proof.
  induction l as [|x l IH]; intros b th U ic Hok.
  - simpl. now rewrite app_nil_r.
  - simpl for_each. unfold bind at 1.
    rewrite (threshold_loop_body b th U ic x (Hok x ltac:(left))).
    rewrite IH by (intros y Hy; apply Hok; now right).
    simpl. now rewrite <- app_assoc.
Qed.

(** The mass function of the masked branch. *)
Lemma threshold_mass_masked (b : PrioritizedER.t) (th : num) (U : ndarray)
    (ic : list num) :
  let s := ThresholdPrioritizedER.Make b th U ic in
  length (PrioritizedER.priorities b) = length (PrioritizedER.buffer b) ->
  (forall x, x ∈ PrioritizedER.buffer b -> in_shape (Some (nrows U, ncols U)) x) ->
  total (masked_priorities s) <> 0 ->
  ThresholdPrioritizedER.mass s
  = Returns (map (fun x => Num (val x / total (masked_priorities s)) Np)
               (masked_priorities s))
      (ThresholdPrioritizedER.Make b th U
         (map (quota_mask U th) (PrioritizedER.buffer b))).
Proof.
  intros s Hlen Hok Hsum. unfold s in *. unfold masked_priorities in *.
  cbn [ThresholdPrioritizedER.base ThresholdPrioritizedER.U_mat
       ThresholdPrioritizedER.threshold] in *.
  set (mask := map (quota_mask U th) (PrioritizedER.buffer b)) in *.
  set (modified_prior := zip_with (fun x y => Num (val x * val y) Np)
                           (PrioritizedER.priorities b) mask) in *.
  unfold ThresholdPrioritizedER.mass.
  rewrite (bind_Returns _ _ _ (ThresholdPrioritizedER.Make b th U []) tt)
    by reflexivity.
  rewrite (bind_Returns get _ _ (ThresholdPrioritizedER.Make b th U [])
             (ThresholdPrioritizedER.Make b th U [])) by reflexivity.
  cbn [ThresholdPrioritizedER.base].
  rewrite (bind_Returns _ _ _ (ThresholdPrioritizedER.Make b th U mask) tt)
    by (apply (threshold_loop _ b th U [] Hok)).
  rewrite (bind_Returns get _ _ (ThresholdPrioritizedER.Make b th U mask)
             (ThresholdPrioritizedER.Make b th U mask)) by reflexivity.
  cbn [ThresholdPrioritizedER.base ThresholdPrioritizedER.is_counted].
  rewrite np_multiply_same_length by (unfold mask; now rewrite length_map).
  fold modified_prior.
  rewrite (bind_Returns _ _ _ (ThresholdPrioritizedER.Make b th U mask)
             modified_prior) by reflexivity.
  unfold py_eq. rewrite val_py_sum. change (val zero) with 0.
  rewrite (Reqb_false _ _ Hsum).
  rewrite np_divide_nonzero by (intros _; now rewrite val_py_sum).
  rewrite val_py_sum. reflexivity.
Qed.

Lemma threshold_mass_frame :
  keeps (fun s => (ThresholdPrioritizedER.base s,
                   ThresholdPrioritizedER.threshold s,
                   ThresholdPrioritizedER.U_mat s))
    ThresholdPrioritizedER.mass.
Proof. unfold ThresholdPrioritizedER.mass. keeps_walk. Qed.

Lemma inccell_Ok (m m' : ndarray) (i j : Z) :
  inccell m i j = Ok m' ->
  exists a b, cell_index m i j = Some (a, b)
              /\ nrows m' = nrows m /\ ncols m' = ncols m
              /\ forall a' b', cell m' a' b'
                  = cell m a' b' + (if (a' =? a)%nat && (b' =? b)%nat then 1 else 0).
Proof.
  unfold inccell. destruct (cell_index m i j) as [[a b]|]; [|discriminate].
  intros [= <-]. exists a, b. split; [reflexivity|]. split; [reflexivity|].
  split; [reflexivity|]. intros a' b'. simpl.
  destruct ((a' =? a)%nat && (b' =? b)%nat); lra.
Qed.

(** X7.  Whenever [sample()] of the Threshold policy returns an index,
    that index is a slot of the buffer, the sample count [U] of the
    [(state, action)] pair stored there has gone up by exactly 1, every
    other count is as before, and the buffer, the priorities, the
    threshold and the shape of [U] are untouched. *)
Theorem threshold_sample_increments (s s' : ThresholdPrioritizedER.t)
    (u : R) (idx : nat) :
  ThresholdPrioritizedER.sample u s = Returns idx s' ->
  exists (x : experience) (a b : nat),
    PrioritizedER.buffer (ThresholdPrioritizedER.base s) !! idx = Some x
    /\ cell_index (ThresholdPrioritizedER.U_mat s) (state x) (action x)
       = Some (a, b)
    /\ ThresholdPrioritizedER.base s' = ThresholdPrioritizedER.base s
    /\ ThresholdPrioritizedER.threshold s' = ThresholdPrioritizedER.threshold s
    /\ nrows (ThresholdPrioritizedER.U_mat s')
       = nrows (ThresholdPrioritizedER.U_mat s)
    /\ ncols (ThresholdPrioritizedER.U_mat s')
       = ncols (ThresholdPrioritizedER.U_mat s)
    /\ forall a' b',
         cell (ThresholdPrioritizedER.U_mat s') a' b'
         = cell (ThresholdPrioritizedER.U_mat s) a' b'
           + (if (a' =? a)%nat && (b' =? b)%nat then 1 else 0).
Proof.
  unfold ThresholdPrioritizedER.sample, bind.
  pose proof (threshold_mass_frame s) as K.
  destruct (ThresholdPrioritizedER.mass s) as [pmf s1| |]; try discriminate.
  injection K as Hb Ht HU.
  unfold get, lift, modify, ret.
  destruct (getitem _ _) as [x| |] eqn:Hx; try discriminate.
  destruct (inccell _ _ _) as [m| |] eqn:Hm; try discriminate.
  intros [= <- <-].
  apply getitem_nat_Ok in Hx. rewrite Hb in Hx. rewrite HU in Hm.
  destruct (inccell_Ok _ _ _ _ Hm) as (a & b & Hc & Hr & Hcol & Hcells).
  exists x, a, b. simpl. auto 10.
Qed.

Lemma threshold_sample_increments_witness :
  exists (s1 s2 : ThresholdPrioritizedER.t) (x : experience),
    ThresholdPrioritizedER.sample (1 / 2) s1 = Returns 0%nat s2
    /\ PrioritizedER.buffer (ThresholdPrioritizedER.base s1) !! 0%nat = Some x
    /\ cell (ThresholdPrioritizedER.U_mat s2) 0 0
       = cell (ThresholdPrioritizedER.U_mat s1) 0 0 + 1.
Proof.
  destruct threshold_fallback_numpy_signal as (r1 & r2 & r3 & Hrun & H1 & _).
  rewrite threshold_one_stored in Hrun. injection Hrun as <-.
  unfold sample, on in H1.
  destruct (ThresholdPrioritizedER.sample (1 / 2) _) as [i s2| |] eqn:Hs;
    try discriminate.
  injection H1 as -> _.
  destruct (threshold_sample_increments _ _ _ _ Hs)
    as (x & a & b & Hx & Hc & _ & _ & _ & _ & Hcells).
  eexists _, s2, x. split; [exact Hs|]. split; [exact Hx|].
  rewrite Hcells. simpl in Hx. injection Hx as <-.
  simpl in Hc. injection Hc as <- <-. reflexivity.
Defined.

Lemma Rltb_spec (a b : R) : Rltb a b = true <-> a < b.
Proof. unfold Rltb. destruct (Rlt_dec a b); split; auto; discriminate. Qed.

Lemma total_nonneg (l : list num) :
  (forall x, x ∈ l -> 0 <= val x) -> 0 <= total l.
Proof.
  induction l as [|y l IH]; intros H; simpl; [lra|].
  assert (0 <= val y) by (apply H; left).
  assert (0 <= total l) by (apply IH; intros z Hz; apply H; now right).
  lra.
Qed.

Lemma total_scaled (l : list num) (T : R) :
  T <> 0 -> total (map (fun x => Num (val x / T) Np) l) = total l / T.
Proof.
  intros HT. induction l as [|x l IH]; simpl.
  - field. exact HT.
  - rewrite IH. field. exact HT.
Qed.


Lemma quota_mask_values (U : ndarray) (th : num) (x : experience) :
  (val (quota_mask U th x) = 1 /\ occurrences U x < val th)
  \/ (val (quota_mask U th x) = 0 /\ ~ occurrences U x < val th).
Proof.
  unfold quota_mask, py_lt, Rltb. simpl.
  destruct (Rlt_dec (occurrences U x) (val th)); [left | right]; auto.
Qed.

Lemma masked_priorities_nonneg (s : ThresholdPrioritizedER.t) :
  (forall p, p ∈ PrioritizedER.priorities (ThresholdPrioritizedER.base s) ->
     0 <= val p) ->
  forall m, m ∈ masked_priorities s -> 0 <= val m.
Proof.
  intros Hps m Hm. apply list_elem_of_lookup_1 in Hm as [i Hi].
  unfold masked_priorities in Hi.
  apply lookup_zip_with_Some in Hi as (p & w & -> & Hp & Hw).
  rewrite map_lookup in Hw.
  destruct (PrioritizedER.buffer (ThresholdPrioritizedER.base s) !! i)
    as [x|]; [|discriminate]. injection Hw as <-.
  simpl. apply list_elem_of_lookup_2 in Hp. specialize (Hps p Hp).
  destruct (quota_mask_values (ThresholdPrioritizedER.U_mat s)
              (ThresholdPrioritizedER.threshold s) x) as [[-> _]|[-> _]]; lra.
Qed.

Lemma inccell_occurrences (U U' : ndarray) (x : experience) :
  inccell U (state x) (action x) = Ok U' ->
  occurrences U' x = occurrences U x + 1.
Proof.
  intros H. destruct (inccell_Ok _ _ _ _ H) as (a & b & Hc & Hr & Hcol & Hcells).
  unfold occurrences, cell_index in *. rewrite Hr, Hcol.
  destruct (py_index (nrows U) (state x)) as [a0|]; [|discriminate].
  destruct (py_index (ncols U) (action x)) as [b0|]; [|discriminate].
  injection Hc as -> ->. rewrite Hcells, !Nat.eqb_refl. reflexivity.
Qed.

(** What [sample] of the Threshold policy does in the masked branch. *)
Lemma threshold_sample_masked (s : ThresholdPrioritizedER.t) (u : R) :
  length (PrioritizedER.priorities (ThresholdPrioritizedER.base s))
  = length (PrioritizedER.buffer (ThresholdPrioritizedER.base s)) ->
  (forall x, x ∈ PrioritizedER.buffer (ThresholdPrioritizedER.base s) ->
     in_shape (Some (nrows (ThresholdPrioritizedER.U_mat s),
                     ncols (ThresholdPrioritizedER.U_mat s))) x) ->
  (forall p, p ∈ PrioritizedER.priorities (ThresholdPrioritizedER.base s) ->
     0 <= val p) ->
  total (masked_priorities s) <> 0 -> u < 1 ->
  let pmf := map (fun x => Num (val x / total (masked_priorities s)) Np)
               (masked_priorities s) in
  let idx := count_lt (np_cumsum pmf) u in
  exists (x : experience) (s' : ThresholdPrioritizedER.t),
    ThresholdPrioritizedER.sample u s = Returns idx s'
    /\ PrioritizedER.buffer (ThresholdPrioritizedER.base s) !! idx = Some x
    /\ occurrences (ThresholdPrioritizedER.U_mat s') x
       = occurrences (ThresholdPrioritizedER.U_mat s) x + 1
    /\ (forall y, y ∈ pmf -> 0 <= val y).
Proof.
  intros Hlen Hok Hps Hsum Hu pmf idx.
  pose proof (masked_priorities_nonneg s Hps) as Hnn.
  assert (HT : 0 < total (masked_priorities s))
    by (pose proof (total_nonneg _ Hnn); lra).
  assert (Hpmf : forall y, y ∈ pmf -> 0 <= val y).
  { intros y Hy. unfold pmf in Hy.
    apply list_elem_of_In, in_map_iff in Hy as (m & <- & Hm).
    apply list_elem_of_In in Hm. simpl.
    apply Rmult_le_pos; [now apply Hnn | left; now apply Rinv_0_lt_compat]. }
  assert (Hlenm : length (masked_priorities s)
                  = length (PrioritizedER.buffer (ThresholdPrioritizedER.base s))).
  { unfold masked_priorities. rewrite length_zip_with, length_map. lia. }
  assert (Hne : masked_priorities s <> [])
    by (intros Hnil; rewrite Hnil in Hsum; simpl in Hsum; lra).
  assert (Hidx : (idx < length (PrioritizedER.buffer
                                  (ThresholdPrioritizedER.base s)))%nat).
  { rewrite <- Hlenm.
    replace (length (masked_priorities s)) with (length pmf)
      by (unfold pmf; apply length_map).
    apply count_lt_cumsum_bound; [| exact Hpmf |].
    - unfold pmf. destruct (masked_priorities s); [contradiction | discriminate].
    - unfold pmf. rewrite total_scaled by lra.
      replace (total (masked_priorities s) / total (masked_priorities s))
        with 1 by (field; lra). lra. }
  destruct (lookup_lt_is_Some_2 _ _ Hidx) as [x Hx].
  destruct (inccell_in_shape (ThresholdPrioritizedER.U_mat s) x
              (Hok x (list_elem_of_lookup_2 _ _ _ Hx)))
    as (U' & HU' & _).
  destruct s as [b th U ic].
  cbn [ThresholdPrioritizedER.base ThresholdPrioritizedER.U_mat] in *.
  exists x, (ThresholdPrioritizedER.Make b th U'
               (map (quota_mask U th) (PrioritizedER.buffer b))).
  split; [|split; [exact Hx | split; [|exact Hpmf]]].
  - unfold ThresholdPrioritizedER.sample.
    rewrite (bind_Returns _ _ _ _ _
               (threshold_mass_masked b th U ic Hlen Hok Hsum)).
    fold pmf. cbv zeta. fold idx.
    rewrite (bind_Returns get _ _ _ _ eq_refl).
    cbn [ThresholdPrioritizedER.base ThresholdPrioritizedER.U_mat].
    assert (Hget : getitem (PrioritizedER.buffer b) (Z.of_nat idx) = Ok x).
    { unfold getitem. rewrite py_index_of_nat by exact Hidx. now rewrite Hx. }
    rewrite Hget.
    unfold bind, lift, modify, ret. cbv beta iota. rewrite HU'. reflexivity.
  - cbn [ThresholdPrioritizedER.U_mat]. now apply inccell_occurrences.
Qed.


(** X9.  The draw [u = 0], which [np.random.random()] can produce,
    escapes the quota: under the same conditions [sample()] returns
    slot 0 and counts a sample for its pair, whatever the mask of
    slot 0, also when that pair has used up its quota. *)
Theorem threshold_zero_draw_ignores_quota (s : ThresholdPrioritizedER.t)
    (u : R) :
  length (PrioritizedER.priorities (ThresholdPrioritizedER.base s))
  = length (PrioritizedER.buffer (ThresholdPrioritizedER.base s)) ->
  (forall x, x ∈ PrioritizedER.buffer (ThresholdPrioritizedER.base s) ->
     in_shape (Some (nrows (ThresholdPrioritizedER.U_mat s),
                     ncols (ThresholdPrioritizedER.U_mat s))) x) ->
  (forall p, p ∈ PrioritizedER.priorities (ThresholdPrioritizedER.base s) ->
     0 <= val p) ->
  total (masked_priorities s) <> 0 -> u <= 0 ->
  exists (x : experience) (s' : ThresholdPrioritizedER.t),
    ThresholdPrioritizedER.sample u s = Returns 0%nat s'
    /\ PrioritizedER.buffer (ThresholdPrioritizedER.base s) !! 0%nat = Some x
    /\ occurrences (ThresholdPrioritizedER.U_mat s') x
       = occurrences (ThresholdPrioritizedER.U_mat s) x + 1.
Proof.
  intros Hlen Hok Hps Hsum Hu.
  destruct (threshold_sample_masked s u Hlen Hok Hps Hsum ltac:(lra))
    as (x & s' & Hs & Hx & Hocc & Hpmf).
  cbv zeta in *.
  assert (Hzero : count_lt
                    (np_cumsum
                       (map (fun x => Num (val x / total (masked_priorities s)) Np)
                          (masked_priorities s))) u = 0%nat)
    by (apply count_lt_above; [lra | exact Hpmf]).
  rewrite Hzero in Hs, Hx. exists x, s'. auto.
Qed.

(** Two buffered transitions with priority 1 under [threshold = 1]: the
    pair of slot 0 has been sampled once, the pair of slot 1 never. *)
Lemma quota_example :
  let U := NdArray 2 1 (fun a _ => if (a =? 0)%nat then 1 else 0) in
  let s := ThresholdPrioritizedER.Make
             (PrioritizedER.Make 2
                [Experience 0 0 zero 1; Experience 1 0 zero 0] 0 one one
                [Num 1 Py; Num 1 Py] (Num 2 Py)) one U [] in
  length (PrioritizedER.priorities (ThresholdPrioritizedER.base s))
  = length (PrioritizedER.buffer (ThresholdPrioritizedER.base s))
  /\ (forall x, x ∈ PrioritizedER.buffer (ThresholdPrioritizedER.base s) ->
        in_shape (Some (nrows (ThresholdPrioritizedER.U_mat s),
                        ncols (ThresholdPrioritizedER.U_mat s))) x)
  /\ (forall p, p ∈ PrioritizedER.priorities (ThresholdPrioritizedER.base s) ->
        0 <= val p)
  /\ total (masked_priorities s) <> 0
  /\ ~ occurrences U (Experience 0 0 zero 1) < val one.
Proof.
  intros U s. split; [reflexivity|]. split; [|split; [|split]].
  - intros x Hx. simpl in Hx.
    apply elem_of_cons in Hx as [->|Hx]; [split; discriminate|].
    apply elem_of_cons in Hx as [->|Hx]; [split; discriminate|].
    inversion Hx.
  - intros p Hp. simpl in Hp.
    apply elem_of_cons in Hp as [->|Hp]; [simpl; lra|].
    apply elem_of_cons in Hp as [->|Hp]; [simpl; lra|].
    inversion Hp.
  - assert (H0 : quota_mask U one (Experience 0 0 zero 1) = zero).
    { unfold quota_mask, py_lt.
      change (occurrences U (Experience 0 0 zero 1)) with 1.
      simpl val. rewrite Rltb_false by lra. reflexivity. }
    assert (H1 : quota_mask U one (Experience 1 0 zero 0) = one).
    { unfold quota_mask, py_lt.
      change (occurrences U (Experience 1 0 zero 0)) with 0.
      simpl val. rewrite Rltb_true by lra. reflexivity. }
    unfold masked_priorities, s.
    cbn [ThresholdPrioritizedER.base ThresholdPrioritizedER.U_mat
         ThresholdPrioritizedER.threshold PrioritizedER.priorities
         PrioritizedER.buffer map].
    rewrite H0, H1. simpl. lra.
  - change (occurrences U (Experience 0 0 zero 1)) with 1. simpl. lra.
Qed.


Lemma threshold_zero_draw_ignores_quota_witness :
  let U := NdArray 2 1 (fun a _ => if (a =? 0)%nat then 1 else 0) in
  let s := ThresholdPrioritizedER.Make
             (PrioritizedER.Make 2
                [Experience 0 0 zero 1; Experience 1 0 zero 0] 0 one one
                [Num 1 Py; Num 1 Py] (Num 2 Py)) one U [] in
  exists s' : ThresholdPrioritizedER.t,
    ThresholdPrioritizedER.sample 0 s = Returns 0%nat s'
    /\ ~ occurrences U (Experience 0 0 zero 1) < val one
    /\ occurrences (ThresholdPrioritizedER.U_mat s') (Experience 0 0 zero 1)
       = occurrences U (Experience 0 0 zero 1) + 1.
Proof.
  intros U s.
  destruct quota_example as (Hlen & Hok & Hps & Hsum & Hfull).
  assert (Hu : 0 <= 0) by lra.
  destruct (threshold_zero_draw_ignores_quota s 0 Hlen Hok Hps Hsum Hu)
    as (x & s' & Hs & Hx & Hocc).
  simpl in Hx. injection Hx as <-.
  exists s'. split; [exact Hs|]. split; [exact Hfull | exact Hocc].
Defined.

End Threshold.

(** ** The Rarity policy *)

Section RarityCounts.
Local Open Scope R_scope.

Lemma rare_sample_frame (u : R) :
  keeps (fun s => (RarePrioritizedER.base s, RarePrioritizedER.F_mat s))
    (RarePrioritizedER.sample u).
Proof.
  unfold RarePrioritizedER.sample, RarePrioritizedER.mass. keeps_walk.
Qed.

Lemma RarePrioritizedER_store_Returns st ac rw ns td
    (s s' : RarePrioritizedER.t) :
  RarePrioritizedER.store st ac rw ns td s = Returns tt s' ->
  exists b' F',
    PrioritizedER.store st ac rw ns td (RarePrioritizedER.base s) = Returns tt b'
    /\ inccell (RarePrioritizedER.F_mat s) st ac = Ok F'
    /\ s' = RarePrioritizedER.Make b' F' (RarePrioritizedER.proportion s).
Proof.
  unfold RarePrioritizedER.store, bind, get, super, lift, modify.
  destruct (PrioritizedER.store _ _ _ _ _ _) as [[] b'| |]; try discriminate.
  simpl. destruct (inccell _ _ _) as [F'| |]; try discriminate.
  intros [= <-]. exists b', F'. auto.
Qed.

Lemma addresses_cell (m : ndarray) (x : experience) (a0 b0 a b : nat) :
  cell_index m (state x) (action x) = Some (a0, b0) ->
  addresses (nrows m) (ncols m) x a b = (a =? a0)%nat && (b =? b0)%nat.
Proof.
  unfold cell_index, addresses.
  destruct (py_index (nrows m) (state x)); [|discriminate].
  destruct (py_index (ncols m) (action x)); [|discriminate].
  intros [= -> ->]. now rewrite (Nat.eqb_sym a0 a), (Nat.eqb_sym b0 b).
Qed.

Lemma buffer_after_store st ac rw ns td (b b' : PrioritizedER.t) :
  PrioritizedER.store st ac rw ns td b = Returns tt b' ->
  forall y, y ∈ PrioritizedER.buffer b' ->
            y = Experience st ac rw ns \/ y ∈ PrioritizedER.buffer b.
Proof.
  intros H y Hy.
  destruct (PrioritizedER_store_ring _ _ _ _ _ _ _ _ H) as [_ (_ & Hbuf & _)].
  simpl in Hbuf. rewrite Hbuf in Hy.
  destruct (_ <? _)%nat;
    [apply (elem_of_insert_inv _ _ _ _ Hy) | apply (elem_of_snoc_inv _ _ _ Hy)].
Qed.

Lemma occurrences_cell (m : ndarray) (x : experience) (a b : nat) :
  cell_index m (state x) (action x) = Some (a, b) -> occurrences m x = cell m a b.
Proof. intros H. unfold occurrences. now rewrite H. Qed.

Lemma in_shape_cell (m : ndarray) (x : experience) :
  in_shape (Some (nrows m, ncols m)) x ->
  exists a b, cell_index m (state x) (action x) = Some (a, b).
Proof.
  intros [Hr Hc]. unfold cell_index.
  destruct (py_index (nrows m) (state x)) as [a|]; [|contradiction].
  destruct (py_index (ncols m) (action x)) as [b|]; [|contradiction].
  now exists a, b.
Qed.

Lemma cell_in_shape (m : ndarray) (x : experience) (a b : nat) :
  cell_index m (state x) (action x) = Some (a, b) ->
  in_shape (Some (nrows m, ncols m)) x.
Proof.
  unfold cell_index. simpl.
  destruct (py_index (nrows m) (state x)); [|discriminate].
  destruct (py_index (ncols m) (action x)); [|discriminate].
  intros _. split; discriminate.
Qed.

Lemma cell_index_shape (m m' : ndarray) (i j : Z) :
  nrows m' = nrows m -> ncols m' = ncols m ->
  cell_index m' i j = cell_index m i j.
Proof. intros Hr Hc. unfold cell_index. now rewrite Hr, Hc. Qed.

(** One returning call on a Rarity instance. *)
Lemma rarity_step (c : call) (s0 : RarePrioritizedER.t) (r : replay) :
  perform c (Rarity s0) = Returns tt r ->
  exists s, r = Rarity s
    /\ nrows (RarePrioritizedER.F_mat s) = nrows (RarePrioritizedER.F_mat s0)
    /\ ncols (RarePrioritizedER.F_mat s) = ncols (RarePrioritizedER.F_mat s0)
    /\ (forall a b,
          cell (RarePrioritizedER.F_mat s) a b
          = cell (RarePrioritizedER.F_mat s0) a b
            + INR (count_addressing (nrows (RarePrioritizedER.F_mat s0))
                     (ncols (RarePrioritizedER.F_mat s0)) (stored [c]) a b))
    /\ (rarity_ready s0 -> rarity_ready s).
Proof.
  destruct c as [st ac rw ns td|idx td|u draw]; simpl perform.
  - unfold store, on.
    destruct (RarePrioritizedER.store _ _ _ _ _ s0) as [[] s| |] eqn:Hst;
      try discriminate.
    intros [= <-]. exists s. split; [reflexivity|].
    destruct (RarePrioritizedER_store_Returns _ _ _ _ _ _ _ Hst)
      as (b' & F' & Hb & HF & ->).
    destruct (inccell_Ok _ _ _ _ HF) as (a0 & b0 & Hc & Hr & Hcol & Hcells).
    cbn [RarePrioritizedER.F_mat RarePrioritizedER.base].
    split; [exact Hr|]. split; [exact Hcol|]. split.
    + intros a b. rewrite Hcells. simpl stored. simpl count_addressing.
      rewrite (addresses_cell _ (Experience st ac rw ns) a0 b0 a b Hc).
      destruct ((a =? a0)%nat && (b =? b0)%nat); simpl; lra.
    + intros [Hnn Hbuf]. unfold rarity_ready.
      cbn [RarePrioritizedER.F_mat RarePrioritizedER.base]. split.
      * intros a b. rewrite Hcells. specialize (Hnn a b).
        destruct ((a =? a0)%nat && (b =? b0)%nat); lra.
      * intros y Hy. rewrite Hr, Hcol.
        destruct (buffer_after_store _ _ _ _ _ _ _ Hb y Hy) as [->|Hold].
        -- split; [exact (cell_in_shape _ (Experience st ac rw ns) _ _ Hc)|].
           rewrite (inccell_occurrences _ _ (Experience st ac rw ns) HF).
           rewrite (occurrences_cell _ (Experience st ac rw ns) _ _ Hc).
           specialize (Hnn a0 b0). lra.
        -- destruct (Hbuf y Hold) as [Hs Ho]. split; [exact Hs|].
           destruct (in_shape_cell _ y Hs) as (a & b & Hcy).
           rewrite (occurrences_cell _ y a b) in Ho by exact Hcy.
           rewrite (occurrences_cell F' y a b)
             by (rewrite (cell_index_shape _ F' _ _ Hr Hcol); exact Hcy).
           rewrite Hcells. destruct ((a =? a0)%nat && (b =? b0)%nat); lra.
  - unfold updatePriority, on, RarePrioritizedER.updatePriority, super.
    assert (Hbuf : keeps PrioritizedER.buffer (PrioritizedER.updatePriority idx td)).
    { unfold PrioritizedER.updatePriority. keeps_walk. }
    specialize (Hbuf (RarePrioritizedER.base s0)).
    destruct (PrioritizedER.updatePriority idx td (RarePrioritizedER.base s0))
      as [[] b'| |]; try discriminate.
    intros [= <-]. eexists; split; [reflexivity|].
    cbn [RarePrioritizedER.set_base RarePrioritizedER.F_mat
         RarePrioritizedER.base].
    split; [reflexivity|]. split; [reflexivity|]. split.
    + intros a b. simpl. lra.
    + intros [Hnn Hb]. unfold rarity_ready.
      cbn [RarePrioritizedER.set_base RarePrioritizedER.F_mat
           RarePrioritizedER.base].
      split; [exact Hnn|]. rewrite Hbuf. exact Hb.
  - unfold bind, sample, on.
    pose proof (rare_sample_frame u s0) as K.
    destruct (RarePrioritizedER.sample u s0) as [i s| |]; try discriminate.
    injection K as Hb HF.
    intros [= <-]. exists s. split; [reflexivity|]. rewrite HF.
    split; [reflexivity|]. split; [reflexivity|]. split.
    + intros a b. simpl. lra.
    + unfold rarity_ready. now rewrite Hb, HF.
Qed.

Lemma count_addressing_app (rows cols : nat) (xs ys : list experience)
    (a b : nat) :
  count_addressing rows cols (xs ++ ys) a b
  = (count_addressing rows cols xs a b + count_addressing rows cols ys a b)%nat.
Proof. induction xs as [|x xs IH]; simpl; [reflexivity | rewrite IH; lia]. Qed.

Lemma stored_cons (c : call) (cs : list call) :
  stored (c :: cs) = stored [c] ++ stored cs.
Proof. destruct c; reflexivity. Qed.

Lemma rarity_run (cs : list call) :
  forall (s0 : RarePrioritizedER.t) (r : replay),
    run cs (Rarity s0) = Returns tt r ->
    exists s, r = Rarity s
      /\ nrows (RarePrioritizedER.F_mat s) = nrows (RarePrioritizedER.F_mat s0)
      /\ ncols (RarePrioritizedER.F_mat s) = ncols (RarePrioritizedER.F_mat s0)
      /\ (forall a b,
            cell (RarePrioritizedER.F_mat s) a b
            = cell (RarePrioritizedER.F_mat s0) a b
              + INR (count_addressing (nrows (RarePrioritizedER.F_mat s0))
                       (ncols (RarePrioritizedER.F_mat s0)) (stored cs) a b))
      /\ (rarity_ready s0 -> rarity_ready s).
Proof.
  induction cs as [|c cs IH]; intros s0 r Hrun.
  - injection Hrun as <-. exists s0. split; [reflexivity|].
    split; [reflexivity|]. split; [reflexivity|]. split; [|auto].
    intros a b. simpl. lra.
  - rewrite run_cons in Hrun.
    destruct (perform c (Rarity s0)) as [[] r1| |] eqn:Hc; try discriminate.
    destruct (rarity_step c s0 r1 Hc) as (s1 & -> & Hr1 & Hc1 & Hcells1 & Hready1).
    destruct (IH s1 r Hrun) as (s & -> & Hr & Hcol & Hcells & Hready).
    exists s. split; [reflexivity|].
    split; [congruence|]. split; [congruence|]. split; [|auto].
    intros a b. rewrite Hcells, Hcells1, Hr1, Hc1.
    rewrite (stored_cons c cs), count_addressing_app, plus_INR. lra.
Qed.

(** X10.  The occurrence table of the Rarity policy counts stores over
    the whole life of the instance: after any run of calls that all
    return, each cell [F[a, b]] is the number of [store] calls made for
    that cell, however many of those transitions have been overwritten
    in the ring since, and whatever [sample] and [updatePriority] calls
    came in between. *)
Theorem rarity_counts_stores (n : nat) (al e : num) (ns na : nat)
    (cs : list call) (r : replay) :
  run cs (construct (NewRarity n al e ns na)) = Returns tt r ->
  exists s : RarePrioritizedER.t,
    r = Rarity s
    /\ nrows (RarePrioritizedER.F_mat s) = ns
    /\ ncols (RarePrioritizedER.F_mat s) = na
    /\ forall a b : nat,
         cell (RarePrioritizedER.F_mat s) a b
         = INR (count_addressing ns na (stored cs) a b).
Proof.
  intros Hrun. destruct (rarity_run cs _ r Hrun) as (s & -> & Hr & Hc & Hcells & _).
  exists s. split; [reflexivity|]. split; [exact Hr|]. split; [exact Hc|].
  intros a b. rewrite Hcells. simpl. lra.
Qed.

Lemma rarity_counts_stores_witness :
  let args := [(Experience 0 0 zero 1, one); (Experience 0 0 one 0, zero);
               (Experience 0 0 zero 0, one)] in
  exists s : RarePrioritizedER.t,
    run (map store_call args) (construct (NewRarity 1 one one 1 1))
    = Returns tt (Rarity s)
    /\ cell (RarePrioritizedER.F_mat s) 0 0 = 3.
Proof.
  intros args.
  destruct (fresh_stores_return (NewRarity 1 one one 1 1) args) as [r Hr].
  - simpl. lia.
  - unfold floor_positive. simpl. lra.
  - repeat constructor; discriminate.
  - destruct (rarity_counts_stores 1 one one 1 1 _ r Hr)
      as (s & -> & _ & _ & Hcells).
    exists s. split; [exact Hr|]. rewrite Hcells. simpl. lra.
Defined.







End RarityCounts.

(** ** What [updatePriority] writes, and the sign of the signal *)

Section Updates.
Local Open Scope R_scope.





Lemma py_abs_opposite (x : R) (k : kind) :
  py_abs (Num (- x) k) = py_abs (Num x k).
Proof. unfold py_abs. simpl. now rewrite Rabs_Ropp. Qed.

(** X14.  Every policy except the Asymmetric one is blind to the sign of
    the signal: [store] and [updatePriority] called with [-x] do exactly
    what they do with [+x] (same outcome, same instance afterwards),
    because the signal is only used through [abs]. *)
Theorem signal_sign_is_ignored (r : replay) (x : R) (k : kind)
    (st ac : Z) (rw : num) (ns : Z) (idx : Z) :
  (forall s, r <> Asymmetric s) ->
  store st ac rw ns (Num (- x) k) r = store st ac rw ns (Num x k) r
  /\ updatePriority idx (Num (- x) k) r = updatePriority idx (Num x k) r.
Proof.
  intros Hna.
  destruct r as [s|s|s|s|s|s]; try (exfalso; now apply (Hna s));
    unfold store, updatePriority, on,
      RarePrioritizedER.store, RarePrioritizedER.updatePriority,
      ThresholdPrioritizedER.store, ThresholdPrioritizedER.updatePriority,
      PrioritizedER.store, PrioritizedER.updatePriority,
      SoftmaxPrioritizedER.store, SoftmaxPrioritizedER.updatePriority;
    rewrite ?py_abs_opposite; split; reflexivity.
Qed.

Lemma signal_sign_is_ignored_witness :
  store 0 0 zero 1 (Num (- 1) Py) (construct (NewPrioritized 2 one one))
  = store 0 0 zero 1 (Num 1 Py) (construct (NewPrioritized 2 one one)).
Proof.
  assert (Hna : forall s, construct (NewPrioritized 2 one one) <> Asymmetric s)
    by (intros s; discriminate).
  exact (proj1 (signal_sign_is_ignored _ 1 Py 0 0 zero 1 0 Hna)).
Defined.

End Updates.
